(** * sqln: a statement cache and a transaction helper over sqlx

    A shallow embedding of [database.go] (package [sqln]) and the
    verification of its statement cache and of the transaction life cycle
    of [Transact].

    The Go code works on pointers ([*Database], [*sync.Mutex], a Go map,
    [*sqlx.NamedStmt], [*sqlx.Tx]) and calls an external SQL driver.  The
    embedding threads an explicit [World] through every call: a heap of
    [Database] structs, a heap of mutexes, a heap of Go maps, the abstract
    state of the driver and a ghost trace of the driver calls made. *)

From Stdlib Require Import ZArith String List DecimalString.
From stdpp Require Import base gmap strings list fin_maps.

Local Open Scope Z_scope.

(** ** Go values *)

(** Heap addresses.  An address that is not allocated in the heap it is
    looked up in plays the role of Go's [nil]. *)
Abbreviation ptr := positive.

(** Identity of a [*sqlx.DB]. *)
Abbreviation conn := nat.

(** Identity of a [*sqlx.Tx]. *)
Abbreviation Tx := nat.

(** [context.Context], opaque. *)
Abbreviation Ctx := nat.

(** The destination argument of [Get] and [Select], opaque. *)
Abbreviation Dest := nat.

(** [sql.Result], opaque. *)
Abbreviation Result := Z.

(** [sql.TxOptions]. *)
Record TxOptions := { Isolation : Z; ReadOnly : bool }.

(** The [params interface{}] argument: [nil], the empty struct
    [struct{}{}], or some value carrying named parameters. *)
Inductive Params :=
| params_nil
| params_empty_struct
| params_named (kv : list (string * Z)).

(** A [*sqlx.NamedStmt].  [PrepareNamed] returns a statement bound to the
    connection; [tx.NamedStmt(s)] returns the same prepared statement bound
    to the transaction [tx]. *)
Record NamedStmt := { stmt_id : nat; stmt_tx : option Tx }.

Global Instance NamedStmt_eq_dec : EqDecision NamedStmt.
Proof. solve_decision. Defined.

(** [tx.NamedStmt(s)] of sqlx. *)
Definition Tx_NamedStmt (t : Tx) (s : NamedStmt) : NamedStmt :=
  {| stmt_id := stmt_id s; stmt_tx := Some t |}.

(** ** Go's [int] *)

Module GoInt.
Definition min_int : Z := - 2 ^ 63.
Definition max_int : Z := 2 ^ 63 - 1.

(** Two's complement wrap-around of a 64-bit [int]. *)
Definition wrap (z : Z) : Z := (z + 2 ^ 63) mod 2 ^ 64 - 2 ^ 63.

Definition add (a b : Z) : Z := wrap (a + b).

(** [%v] of an [int]. *)
Definition format (z : Z) : string := NilZero.string_of_int (Z.to_int z).
End GoInt.

(** ** Errors ([error] and github.com/pkg/errors) *)

Inductive error :=
| driver_error (msg : string)                 (* an error of the SQL driver *)
| fundamental (msg : string)                  (* errors.New *)
| withMessage (cause : error) (msg : string). (* errors.Wrapf on a non-nil error *)

Global Instance error_eq_dec : EqDecision error.
Proof. solve_decision. Defined.

Module errors.
Definition New (msg : string) : error := fundamental msg.

(** [Wrapf] returns [nil] when its argument is [nil]. *)
Definition Wrapf (err : option error) (msg : string) : option error :=
  match err with
  | None => None
  | Some e => Some (withMessage e msg)
  end.

(** The [Error()] method. *)
Fixpoint Error (e : error) : string :=
  match e with
  | driver_error msg => msg
  | fundamental msg => msg
  | withMessage cause msg => msg +:+ ": " +:+ Error cause
  end.

(** [errors.Cause]. *)
Fixpoint Cause (e : error) : error :=
  match e with
  | withMessage cause _ => Cause cause
  | _ => e
  end.
End errors.

(** ** The [Database] struct *)

Record Database := {
  X : conn;
  tx : option Tx;
  txLevel : Z;
  stmtsMtx : ptr;
  stmts : ptr
}.

(** ** Driver calls, as recorded in the ghost trace *)

Inductive Event :=
| EvPrepareNamed (dbx : conn) (query : string)
| EvBeginTxx (dbx : conn) (ctx : Ctx) (opts : TxOptions)
| EvCommit (t : Tx)
| EvRollback (t : Tx)
| EvStmtClose (s : NamedStmt)
| EvExecContext (s : NamedStmt) (ctx : Ctx) (params : Params)
| EvGetContext (s : NamedStmt) (ctx : Ctx) (dest : Dest) (params : Params)
| EvSelectContext (s : NamedStmt) (ctx : Ctx) (dest : Dest) (params : Params)
| EvUnitOfWork (child : ptr). (* ghost: the callback of Transact is entered *)

Global Instance TxOptions_eq_dec : EqDecision TxOptions.
Proof. solve_decision. Defined.
Global Instance Params_eq_dec : EqDecision Params.
Proof. solve_decision. Defined.
Global Instance Event_eq_dec : EqDecision Event.
Proof. solve_decision. Defined.

(** ** The environment: the sqlx driver and the Go runtime

    Every driver call maps the driver's state to an answer and a new
    state.  [range_order] is the order in which a [for ... range] loop
    visits a map: Go leaves it unspecified, so it is any enumeration of the
    entries. *)
Record Env (DS : Type) := {
  drv_PrepareNamed : conn -> string -> DS -> option error * DS;
  drv_BeginTxx : conn -> Ctx -> TxOptions -> DS -> option error * DS;
  drv_Commit : Tx -> DS -> option error * DS;
  drv_Rollback : Tx -> DS -> option error * DS;
  drv_StmtClose : NamedStmt -> DS -> option error * DS;
  drv_ExecContext : NamedStmt -> Ctx -> Params -> DS -> (Result + error) * DS;
  drv_GetContext : NamedStmt -> Ctx -> Dest -> Params -> DS -> option error * DS;
  drv_SelectContext : NamedStmt -> Ctx -> Dest -> Params -> DS -> option error * DS;
  range_order : DS -> gmap string NamedStmt -> list (string * NamedStmt);
  range_order_perm : forall ds m, range_order ds m ≡ₚ map_to_list m
}.

Arguments drv_PrepareNamed {DS}.
Arguments drv_BeginTxx {DS}.
Arguments drv_Commit {DS}.
Arguments drv_Rollback {DS}.
Arguments drv_StmtClose {DS}.
Arguments drv_ExecContext {DS}.
Arguments drv_GetContext {DS}.
Arguments drv_SelectContext {DS}.
Arguments range_order {DS}.
Arguments range_order_perm {DS}.

(** ** The world *)

Record World (DS : Type) := {
  drv : DS;                                 (* state of the driver *)
  dbs : gmap ptr Database;                  (* allocated Database structs *)
  mtxs : gmap ptr bool;                     (* sync.Mutex: is it locked *)
  maps : gmap ptr (gmap string NamedStmt);  (* Go maps *)
  next_tx : nat;                            (* next *sqlx.Tx *)
  next_stmt : nat;                          (* next *sqlx.NamedStmt *)
  trace : list Event                        (* ghost: calls made, oldest first *)
}.

Arguments drv {DS}.
Arguments dbs {DS}.
Arguments mtxs {DS}.
Arguments maps {DS}.
Arguments next_tx {DS}.
Arguments next_stmt {DS}.
Arguments trace {DS}.

(** How a call ends abnormally. *)
Inductive Fault :=
| NilDereference      (* invalid memory address or nil pointer dereference *)
| NilMapAssignment    (* assignment to entry in nil map *)
| SelfDeadlock.       (* Lock on a mutex this goroutine holds *)

Inductive Res (A : Type) :=
| Ok (a : A)
| Abort (f : Fault).

Arguments Ok {A}.
Arguments Abort {A}.

(** ** Callers

    A caller of the package, and in particular a unit of work handed to
    [Transact], is a program over the exported operations.  It can hold
    any handle it was given (a callback can capture the root handle), and
    it has no other access to the fields [tx], [txLevel], [stmtsMtx] and
    [stmts], which the package does not export. *)
Inductive Prog :=
| Return (e : option error)
| CallNew (dbx : conn) (k : ptr -> Prog)
| CallStmt (d : ptr) (query : string) (k : NamedStmt + error -> Prog)
| CallExec (d : ptr) (ctx : Ctx) (query : string) (params : Params)
    (k : Result + error -> Prog)
| CallGet (d : ptr) (ctx : Ctx) (query : string) (dest : Dest) (params : Params)
    (k : option error -> Prog)
| CallSelect (d : ptr) (ctx : Ctx) (query : string) (dest : Dest) (params : Params)
    (k : option error -> Prog)
| CallTransact (d : ptr) (ctx : Ctx) (opts : TxOptions) (f : ptr -> Prog)
    (k : option error -> Prog)
| CallClose (d : ptr) (k : option error -> Prog).

Section Sqln.
Context {DS : Type} (E : Env DS).

Abbreviation W := (World DS).

(** The state monad of the embedding. *)
Definition M (A : Type) : Type := W -> Res A * W.

Definition ret {A} (a : A) : M A := fun w => (Ok a, w).

Definition bind {A B} (m : M A) (k : A -> M B) : M B :=
  fun w =>
    match m w with
    | (Ok a, w') => k a w'
    | (Abort f, w') => (Abort f, w')
    end.

Definition abort {A} (f : Fault) : M A := fun w => (Abort f, w).

(** [defer cleanup] around [body]: [cleanup] runs when [body] returns
    and also when it panics. *)
Definition defer {A} (cleanup : M unit) (body : M A) : M A :=
  fun w =>
    let (r, w1) := body w in
    match cleanup w1 with
    | (Ok _, w2) => (r, w2)
    | (Abort f, w2) => (Abort f, w2)
    end.

Notation "x <- m ;; k" := (bind m (fun x => k))
  (at level 100, m at next level, right associativity).
Notation "m ;;; k" := (bind m (fun _ => k))
  (at level 100, right associativity).

(** *** World updates *)

Definition with_drv (ds : DS) (w : W) : W :=
  {| drv := ds; dbs := dbs w; mtxs := mtxs w; maps := maps w;
     next_tx := next_tx w; next_stmt := next_stmt w; trace := trace w |}.

Definition with_dbs (h : gmap ptr Database) (w : W) : W :=
  {| drv := drv w; dbs := h; mtxs := mtxs w; maps := maps w;
     next_tx := next_tx w; next_stmt := next_stmt w; trace := trace w |}.

Definition with_mtxs (h : gmap ptr bool) (w : W) : W :=
  {| drv := drv w; dbs := dbs w; mtxs := h; maps := maps w;
     next_tx := next_tx w; next_stmt := next_stmt w; trace := trace w |}.

Definition with_maps (h : gmap ptr (gmap string NamedStmt)) (w : W) : W :=
  {| drv := drv w; dbs := dbs w; mtxs := mtxs w; maps := h;
     next_tx := next_tx w; next_stmt := next_stmt w; trace := trace w |}.

Definition with_next_tx (n : nat) (w : W) : W :=
  {| drv := drv w; dbs := dbs w; mtxs := mtxs w; maps := maps w;
     next_tx := n; next_stmt := next_stmt w; trace := trace w |}.

Definition with_next_stmt (n : nat) (w : W) : W :=
  {| drv := drv w; dbs := dbs w; mtxs := mtxs w; maps := maps w;
     next_tx := next_tx w; next_stmt := n; trace := trace w |}.

Definition log (ev : Event) (w : W) : W :=
  {| drv := drv w; dbs := dbs w; mtxs := mtxs w; maps := maps w;
     next_tx := next_tx w; next_stmt := next_stmt w;
     trace := trace w ++ [ev] |}.

(** *** Memory *)

(** [*d], for a field access [d.f]. *)
Definition deref (d : ptr) : M Database :=
  fun w =>
    match dbs w !! d with
    | Some db => (Ok db, w)
    | None => (Abort NilDereference, w)
    end.

(** [&Database{...}] *)
Definition alloc_Database (db : Database) : M ptr :=
  fun w =>
    let p := fresh (dom (dbs w)) in
    (Ok p, with_dbs (<[p := db]> (dbs w)) w).

(** [&sync.Mutex{}] *)
Definition alloc_Mutex : M ptr :=
  fun w =>
    let p := fresh (dom (mtxs w)) in
    (Ok p, with_mtxs (<[p := false]> (mtxs w)) w).

(** [make(map[string]*sqlx.NamedStmt)] *)
Definition make_map : M ptr :=
  fun w =>
    let p := fresh (dom (maps w)) in
    (Ok p, with_maps (<[p := ∅]> (maps w)) w).

(** [m.Lock()] *)
Definition Lock (m : ptr) : M unit :=
  fun w =>
    match mtxs w !! m with
    | None => (Abort NilDereference, w)
    | Some true => (Abort SelfDeadlock, w)
    | Some false => (Ok tt, with_mtxs (<[m := true]> (mtxs w)) w)
    end.

(** [m.Unlock()] *)
Definition Unlock (m : ptr) : M unit :=
  fun w =>
    match mtxs w !! m with
    | None => (Abort NilDereference, w)
    | Some _ => (Ok tt, with_mtxs (<[m := false]> (mtxs w)) w)
    end.

(** The contents of a map; a nil map reads as empty. *)
Definition map_contents (m : ptr) (w : W) : gmap string NamedStmt :=
  default ∅ (maps w !! m).

(** [s, ok := m[key]] *)
Definition map_get (m : ptr) (key : string) : M (option NamedStmt) :=
  fun w => (Ok (map_contents m w !! key), w).

(** [m[key] = s] *)
Definition map_set (m : ptr) (key : string) (s : NamedStmt) : M unit :=
  fun w =>
    match maps w !! m with
    | None => (Abort NilMapAssignment, w)
    | Some c => (Ok tt, with_maps (<[m := <[key := s]> c]> (maps w)) w)
    end.

(** The entries of a map in the order a [range] loop visits them. *)
Definition map_range (m : ptr) : M (list (string * NamedStmt)) :=
  fun w => (Ok (range_order E (drv w) (map_contents m w)), w).

(** *** Calls into sqlx *)

(** [dbx.PrepareNamed(query)]: a fresh statement, or an error. *)
Definition PrepareNamed (dbx : conn) (query : string) : M (NamedStmt + error) :=
  fun w =>
    let (r, ds) := drv_PrepareNamed E dbx query (drv w) in
    let w1 := log (EvPrepareNamed dbx query) (with_drv ds w) in
    match r with
    | Some err => (Ok (inr err), w1)
    | None =>
        (Ok (inl {| stmt_id := next_stmt w; stmt_tx := None |}),
         with_next_stmt (S (next_stmt w)) w1)
    end.

(** [dbx.BeginTxx(ctx, &opts)]: a fresh transaction, or an error. *)
Definition BeginTxx (dbx : conn) (ctx : Ctx) (opts : TxOptions) : M (Tx + error) :=
  fun w =>
    let (r, ds) := drv_BeginTxx E dbx ctx opts (drv w) in
    let w1 := log (EvBeginTxx dbx ctx opts) (with_drv ds w) in
    match r with
    | Some err => (Ok (inr err), w1)
    | None => (Ok (inl (next_tx w)), with_next_tx (S (next_tx w)) w1)
    end.

Definition Commit (t : Tx) : M (option error) :=
  fun w =>
    let (r, ds) := drv_Commit E t (drv w) in
    (Ok r, log (EvCommit t) (with_drv ds w)).

Definition Rollback (t : Tx) : M (option error) :=
  fun w =>
    let (r, ds) := drv_Rollback E t (drv w) in
    (Ok r, log (EvRollback t) (with_drv ds w)).

(** [stmt.Close()] *)
Definition StmtClose (s : NamedStmt) : M (option error) :=
  fun w =>
    let (r, ds) := drv_StmtClose E s (drv w) in
    (Ok r, log (EvStmtClose s) (with_drv ds w)).

Definition ExecContext (s : NamedStmt) (ctx : Ctx) (params : Params)
  : M (Result + error) :=
  fun w =>
    let (r, ds) := drv_ExecContext E s ctx params (drv w) in
    (Ok r, log (EvExecContext s ctx params) (with_drv ds w)).

Definition GetContext (s : NamedStmt) (ctx : Ctx) (dest : Dest) (params : Params)
  : M (option error) :=
  fun w =>
    let (r, ds) := drv_GetContext E s ctx dest params (drv w) in
    (Ok r, log (EvGetContext s ctx dest params) (with_drv ds w)).

Definition SelectContext (s : NamedStmt) (ctx : Ctx) (dest : Dest) (params : Params)
  : M (option error) :=
  fun w =>
    let (r, ds) := drv_SelectContext E s ctx dest params (drv w) in
    (Ok r, log (EvSelectContext s ctx dest params) (with_drv ds w)).

(** *** database.go *)

(** [func New(dbx *sqlx.DB) *Database] *)
Definition New (dbx : conn) : M ptr :=
  m <- alloc_Mutex ;;
  s <- make_map ;;
  alloc_Database
    {| X := dbx; tx := None; txLevel := 0; stmtsMtx := m; stmts := s |}.

(** [func (d *Database) Stmt(query string)], returning a [*sqlx.NamedStmt]
    and an [error]. *)
Definition Stmt (d : ptr) (query : string) : M (NamedStmt + error) :=
  db <- deref d ;;
  Lock (stmtsMtx db) ;;;
  defer (Unlock (stmtsMtx db))
    (found <- map_get (stmts db) query ;;
     match found with
     | Some s => ret (inl s)
     | None =>
         r <- PrepareNamed (X db) query ;;
         match r with
         | inr err => ret (inr err)
         | inl stmt =>
             map_set (stmts db) query stmt ;;;
             ret (inl stmt)
         end
     end).

(** [if params == nil { params = struct{}{} }] *)
Definition default_params (params : Params) : Params :=
  match params with
  | params_nil => params_empty_struct
  | _ => params
  end.

(** [func (d *Database) Exec(ctx, query, params) (sql.Result, error)] *)
Definition Exec (d : ptr) (ctx : Ctx) (query : string) (params : Params)
  : M (Result + error) :=
  r <- Stmt d query ;;
  match r with
  | inr err => ret (inr err)
  | inl s =>
      let params := default_params params in
      db <- deref d ;;
      let exec :=
        match tx db with
        | Some t => ExecContext (Tx_NamedStmt t s)
        | None => ExecContext s
        end in
      exec ctx params
  end.

(** [func (d *Database) Get(ctx, query, dest, params) error] *)
Definition Get (d : ptr) (ctx : Ctx) (query : string) (dest : Dest)
  (params : Params) : M (option error) :=
  r <- Stmt d query ;;
  match r with
  | inr err => ret (Some err)
  | inl s =>
      let params := default_params params in
      db <- deref d ;;
      let get :=
        match tx db with
        | Some t => GetContext (Tx_NamedStmt t s)
        | None => GetContext s
        end in
      e <- get ctx dest params ;;
      match e with
      | Some err => ret (Some err)
      | None => ret None
      end
  end.

(** [func (d *Database) Select(ctx, query, dest, params) error] *)
Definition Select (d : ptr) (ctx : Ctx) (query : string) (dest : Dest)
  (params : Params) : M (option error) :=
  r <- Stmt d query ;;
  match r with
  | inr err => ret (Some err)
  | inl s =>
      let params := default_params params in
      db <- deref d ;;
      let sel :=
        match tx db with
        | Some t => SelectContext (Tx_NamedStmt t s)
        | None => SelectContext s
        end in
      e <- sel ctx dest params ;;
      match e with
      | Some err => ret (Some err)
      | None => ret None
      end
  end.

(** The message of [errors.Wrapf(err, "tx level %v", txLvl)]. *)
Definition tx_level_msg (txLvl : Z) (suffix : string) : string :=
  "tx level " +:+ GoInt.format txLvl +:+ suffix.

(** [func (d *Database) Transact(ctx, opts, f func(DB) error) error] *)
Definition Transact (d : ptr) (ctx : Ctx) (opts : TxOptions)
  (f : ptr -> M (option error)) : M (option error) :=
  db <- deref d ;;
  match tx db with
  | Some _ => ret (Some (errors.New "nested tx not currently supported"))
  | None =>
      r <- BeginTxx (X db) ctx opts ;;
      match r with
      | inr err => ret (Some err)
      | inl t =>
          db <- deref d ;;
          let txLvl := GoInt.add (txLevel db) 1 in
          child <- alloc_Database
                     {| X := X db; tx := Some t; txLevel := txLvl;
                        stmtsMtx := stmtsMtx db; stmts := stmts db |} ;;
          (fun w => (Ok tt, log (EvUnitOfWork child) w)) ;;;
          e <- f child ;;
          match e with
          | Some err =>
              rb <- Rollback t ;;
              match rb with
              | Some err => ret (errors.Wrapf (Some err) (tx_level_msg txLvl ": rollback"))
              | None => ret (errors.Wrapf (Some err) (tx_level_msg txLvl ""))
              end
          | None =>
              cm <- Commit t ;;
              ret (errors.Wrapf cm (tx_level_msg txLvl ": commit"))
          end
      end
  end.

(** The loop of [Close]: it returns at the first failing [stmt.Close()]. *)
Fixpoint close_range (l : list (string * NamedStmt)) : M (option error) :=
  match l with
  | [] => ret None
  | (_, stmt) :: rest =>
      e <- StmtClose stmt ;;
      match e with
      | Some err => ret (Some err)
      | None => close_range rest
      end
  end.

(** [func (d *Database) Close() error] *)
Definition Close (d : ptr) : M (option error) :=
  db <- deref d ;;
  Lock (stmtsMtx db) ;;;
  defer (Unlock (stmtsMtx db))
    (entries <- map_range (stmts db) ;;
     close_range entries).

(** *** Running a caller *)

Fixpoint run (p : Prog) : M (option error) :=
  match p with
  | Return e => ret e
  | CallNew dbx k => d <- New dbx ;; run (k d)
  | CallStmt d query k => r <- Stmt d query ;; run (k r)
  | CallExec d ctx query params k => r <- Exec d ctx query params ;; run (k r)
  | CallGet d ctx query dest params k =>
      r <- Get d ctx query dest params ;; run (k r)
  | CallSelect d ctx query dest params k =>
      r <- Select d ctx query dest params ;; run (k r)
  | CallTransact d ctx opts f k =>
      r <- Transact d ctx opts (fun child => run (f child)) ;; run (k r)
  | CallClose d k => r <- Close d ;; run (k r)
  end.

(** The world before any call. *)
Definition init (ds : DS) : W :=
  {| drv := ds; dbs := ∅; mtxs := ∅; maps := ∅;
     next_tx := 0; next_stmt := 0; trace := [] |}.

End Sqln.

(** ** A scripted driver

    A concrete environment for running the embedding: the script lists
    which driver calls fail.  [range] loops visit a map in the order of
    [map_to_list]. *)
Module Scripted.

Record Script := {
  fail_prepare : list string;   (* queries the driver cannot prepare *)
  fail_begin : bool;
  fail_commit : bool;
  fail_rollback : bool;
  fail_close : list nat;        (* statements whose Close fails *)
  fail_exec : list nat          (* statements whose execution fails *)
}.

Definition answer (fails : bool) (msg : string) : option error :=
  if fails then Some (driver_error msg) else None.

Definition mem_nat (n : nat) (l : list nat) : bool :=
  existsb (Nat.eqb n) l.

Definition mem_string (s : string) (l : list string) : bool :=
  existsb (String.eqb s) l.

Definition env : Env Script :=
  {| drv_PrepareNamed := fun _ q sc =>
       (answer (mem_string q (fail_prepare sc)) "prepare failed", sc);
     drv_BeginTxx := fun _ _ _ sc => (answer (fail_begin sc) "begin failed", sc);
     drv_Commit := fun _ sc => (answer (fail_commit sc) "commit failed", sc);
     drv_Rollback := fun _ sc => (answer (fail_rollback sc) "rollback failed", sc);
     drv_StmtClose := fun s sc =>
       (answer (mem_nat (stmt_id s) (fail_close sc)) "close failed", sc);
     drv_ExecContext := fun s _ _ sc =>
       (if mem_nat (stmt_id s) (fail_exec sc)
        then inr (driver_error "exec failed") else inl 1, sc);
     drv_GetContext := fun s _ _ _ sc =>
       (answer (mem_nat (stmt_id s) (fail_exec sc)) "get failed", sc);
     drv_SelectContext := fun s _ _ _ sc =>
       (answer (mem_nat (stmt_id s) (fail_exec sc)) "select failed", sc);
     range_order := fun _ m => map_to_list m;
     range_order_perm := fun _ m => reflexivity (map_to_list m) |}.

(** Nothing fails. *)
Definition quiet : Script :=
  {| fail_prepare := []; fail_begin := false; fail_commit := false;
     fail_rollback := false; fail_close := []; fail_exec := [] |}.

End Scripted.

(** ** Vocabulary of the statements *)

Section Vocabulary.
Context {DS : Type} (E : Env DS).

(** The handle [d] points to [db], the lock of its cache is free and its
    map is allocated: the state of a handle between two calls. *)
Definition ready (w : World DS) (d : ptr) (db : Database) : Prop :=
  dbs w !! d = Some db /\
  mtxs w !! stmtsMtx db = Some false /\
  is_Some (maps w !! stmts db).

(** The world after the driver was asked to prepare [query]. *)
Definition prepared (w : World DS) (dbx : conn) (query : string) : World DS :=
  log (EvPrepareNamed dbx query)
    (with_drv (snd (drv_PrepareNamed E dbx query (drv w))) w).

(** [n] resolutions of the same query in a row, with their results. *)
Fixpoint Stmt_times (n : nat) (d : ptr) (query : string)
  : M (list (NamedStmt + error)) :=
  match n with
  | O => ret []
  | S n' =>
      bind (Stmt E d query) (fun r =>
      bind (Stmt_times n' d query) (fun rs => ret (r :: rs)))
  end.

(** The statement an operation runs on, lines 63-66, 81-84 and 103-106. *)
Definition target (db : Database) (s : NamedStmt) : NamedStmt :=
  match tx db with
  | Some t => Tx_NamedStmt t s
  | None => s
  end.

(** The handle [Transact] builds for its callback, lines 131-136. *)
Definition child_of (db : Database) (t : Tx) : Database :=
  {| X := X db; tx := Some t; txLevel := GoInt.add (txLevel db) 1;
     stmtsMtx := stmtsMtx db; stmts := stmts db |}.

(** The address [Transact] allocates its child handle at, in the world
    [w1] that [BeginTxx] leaves. *)
Definition child_ptr (w1 : World DS) : ptr := fresh (dom (dbs w1)).

(** The world in which [Transact] enters its callback. *)
Definition callback_world (w1 : World DS) (child : Database) : World DS :=
  log (EvUnitOfWork (child_ptr w1))
    (with_dbs (<[child_ptr w1 := child]> (dbs w1)) w1).

(** What [Transact] does with the error of its callback, lines 137-144. *)
Definition conclude (t : Tx) (txLvl : Z) (e : option error) : M (option error) :=
  match e with
  | Some err =>
      bind (Rollback E t) (fun rb =>
        match rb with
        | Some err' =>
            ret (errors.Wrapf (Some err') (tx_level_msg txLvl ": rollback"))
        | None => ret (errors.Wrapf (Some err) (tx_level_msg txLvl ""))
        end)
  | None =>
      bind (Commit E t) (fun cm =>
        ret (errors.Wrapf cm (tx_level_msg txLvl ": commit")))
  end.

(** The state of the driver after every statement of [l] was closed, in
    order and without a failure. *)
Fixpoint closes_ok (l : list (string * NamedStmt)) (ds : DS) : option DS :=
  match l with
  | [] => Some ds
  | (_, s) :: rest =>
      match drv_StmtClose E s ds with
      | (None, ds') => closes_ok rest ds'
      | (Some _, _) => None
      end
  end.

(** The message of [e] starts with the annotation [tx level txLvl]. *)
Definition has_tx_level (txLvl : Z) (e : error) : bool :=
  String.prefix (tx_level_msg txLvl "") (errors.Error e).

(** The invariant of a handle: no transaction at depth 0, or a
    transaction at depth 1. *)
Definition handle_ok (db : Database) : Prop :=
  (tx db = None /\ txLevel db = 0) \/ (is_Some (tx db) /\ txLevel db = 1).

Definition handles_ok (w : World DS) : Prop :=
  forall d db, dbs w !! d = Some db -> handle_ok db.

(** [respects R m]: every run of [m] relates the world it starts in to
    the world it ends in, whether it returns or aborts. *)
Definition respects (R : relation (World DS)) {A} (m : M (DS:=DS) A) : Prop :=
  forall w, R w (snd (m w)).

(** The heap of handles is left as it is. *)
Definition same_dbs : relation (World DS) := fun w w' => dbs w' = dbs w.

(** Every handle stays where and as it is, and the handle invariant is
    kept. *)
Definition grows : relation (World DS) := fun w w' =>
  dbs w ⊆ dbs w' /\ (handles_ok w -> handles_ok w').

(** Handles, mutexes and maps are left as they are, and no statement is
    allocated. *)
Definition heap_same : relation (World DS) := fun w w' =>
  dbs w' = dbs w /\ mtxs w' = mtxs w /\ maps w' = maps w /\
  next_stmt w' = next_stmt w.

(** Every statement in a map came from [PrepareNamed], and no map holds a
    statement under two queries. *)
Definition caches_ok (w : World DS) : Prop :=
  forall m c,
    maps w !! m = Some c ->
    (forall q s, c !! q = Some s ->
                 (stmt_id s < next_stmt w)%nat /\ stmt_tx s = None) /\
    (forall q1 q2 s, c !! q1 = Some s -> c !! q2 = Some s -> q1 = q2).

(** Every handle is ready and the caches are as [PrepareNamed] filled
    them. *)
Definition sound (w : World DS) : Prop :=
  (forall d db, dbs w !! d = Some db -> ready w d db) /\ caches_ok w.

(** Every entry of every map is still there: the caches only grow. *)
Definition maps_grow : relation (World DS) := fun w w' =>
  forall m c, maps w !! m = Some c -> exists c', maps w' !! m = Some c' /\ c ⊆ c'.

Definition keeps_sound : relation (World DS) := fun w w' =>
  dbs w ⊆ dbs w' /\ (sound w -> sound w' /\ maps_grow w w').

End Vocabulary.

(** ** Example worlds

    The handle of the package's test: [New] on a connection, then the
    statements of the test resolved through [Stmt]. *)
Module Examples.
Import Scripted.

(** [sql.TxOptions{Isolation: sql.LevelSerializable}] *)
Definition opts : TxOptions := {| Isolation := 6; ReadOnly := false |}.

Definition root : ptr := 1%positive.

Definition root_db : Database :=
  {| X := 7%nat; tx := None; txLevel := 0;
     stmtsMtx := 1%positive; stmts := 1%positive |}.

Definition insert : string := "INSERT INTO abc (id,x) VALUES (:id,:x);".
Definition count : string := "SELECT COUNT(*) FROM abc;".

Definition insert_stmt : NamedStmt := {| stmt_id := 0; stmt_tx := None |}.
Definition count_stmt : NamedStmt := {| stmt_id := 1; stmt_tx := None |}.

(** After [New]. *)
Definition fresh_world (sc : Script) : World Script :=
  snd (New 7%nat (init sc)).

(** After [New] and [Stmt(insert)]. *)
Definition warm_world (sc : Script) : World Script :=
  snd (Stmt env root insert (fresh_world sc)).

(** After [New], [Stmt(insert)] and [Stmt(count)]. *)
Definition two_world (sc : Script) : World Script :=
  snd (Stmt env root count (warm_world sc)).

(** After [BeginTxx] in [warm_world]. *)
Definition begun_world (sc : Script) : World Script :=
  snd (BeginTxx env 7%nat 0%nat opts (warm_world sc)).

(** The child handle of a transaction begun in [warm_world]. *)
Definition child : ptr := 2%positive.

(** Scripts with one failure each. *)
Definition no_prepare : Script :=
  {| fail_prepare := [insert]; fail_begin := false; fail_commit := false;
     fail_rollback := false; fail_close := []; fail_exec := [] |}.
Definition no_begin : Script :=
  {| fail_prepare := []; fail_begin := true; fail_commit := false;
     fail_rollback := false; fail_close := []; fail_exec := [] |}.
Definition no_commit : Script :=
  {| fail_prepare := []; fail_begin := false; fail_commit := true;
     fail_rollback := false; fail_close := []; fail_exec := [] |}.
Definition no_rollback : Script :=
  {| fail_prepare := []; fail_begin := false; fail_commit := false;
     fail_rollback := true; fail_close := []; fail_exec := [] |}.
Definition no_close_count : Script :=
  {| fail_prepare := []; fail_begin := false; fail_commit := false;
     fail_rollback := false; fail_close := [1%nat]; fail_exec := [] |}.

(** The world in which the callback of that transaction is entered. *)
Definition entry_world (sc : Script) : World Script :=
  callback_world (begun_world sc) (child_of root_db 0%nat).

(** A unit of work that returns an error, and one that returns [nil]. *)
Definition failing_work (c : ptr) : Prog :=
  CallExec c 0%nat insert (params_named [("id", 1); ("x", 1)])
    (fun _ => Return (Some (errors.New "unable to insert (1,1)"))).

Definition quiet_work (c : ptr) : Prog :=
  CallExec c 0%nat insert (params_named [("id", 1); ("x", 1)])
    (fun _ => Return None).

(** The world a unit of work leaves. *)
Definition after_work (sc : Script) (work : ptr -> Prog) : World Script :=
  snd (run env (work (child_ptr (begun_world sc))) (entry_world sc)).

(** A caller: [New], [Stmt], a transaction that fails, a count. *)
Definition test_db : Prog :=
  CallNew 7%nat (fun d =>
  CallStmt d insert (fun _ =>
  CallTransact d 0%nat opts failing_work (fun _ =>
  CallGet d 0%nat count 0%nat params_nil (fun _ =>
  CallClose d Return)))).

End Examples.

(** ** Vocabulary of the further properties *)

(** A caller that aims every call at a handle it holds: the handles in
    [S], the handles that [New] returned to it, and inside a unit of work
    the handle that [Transact] passed to it. *)
Inductive scoped : (ptr -> Prop) -> Prog -> Prop :=
| scoped_Return S e : scoped S (Return e)
| scoped_New S dbx k :
    (forall d, scoped (fun x => S x \/ x = d) (k d)) ->
    scoped S (CallNew dbx k)
| scoped_Stmt S d query k :
    S d -> (forall r, scoped S (k r)) -> scoped S (CallStmt d query k)
| scoped_Exec S d ctx query params k :
    S d -> (forall r, scoped S (k r)) -> scoped S (CallExec d ctx query params k)
| scoped_Get S d ctx query dest params k :
    S d -> (forall r, scoped S (k r)) ->
    scoped S (CallGet d ctx query dest params k)
| scoped_Select S d ctx query dest params k :
    S d -> (forall r, scoped S (k r)) ->
    scoped S (CallSelect d ctx query dest params k)
| scoped_Transact S d ctx opts f k :
    S d ->
    (forall c, scoped (fun x => S x \/ x = c) (f c)) ->
    (forall r, scoped S (k r)) ->
    scoped S (CallTransact d ctx opts f k)
| scoped_Close S d k :
    S d -> (forall r, scoped S (k r)) -> scoped S (CallClose d k).

(** How often the events [evs] commit, and roll back, the transaction
    [t]. *)
Definition commits (t : Tx) (evs : list Event) : nat :=
  count_occ Event_eq_dec evs (EvCommit t).

Definition rollbacks (t : Tx) (evs : list Event) : nat :=
  count_occ Event_eq_dec evs (EvRollback t).

(** The driver calls a caller can cause from a world whose next
    transaction is [n]: no execution is handed [nil] params, and only
    transactions begun from then on are committed or rolled back. *)
Definition api_event (n : nat) (ev : Event) : Prop :=
  match ev with
  | EvExecContext _ _ params => params <> params_nil
  | EvGetContext _ _ _ params => params <> params_nil
  | EvSelectContext _ _ _ params => params <> params_nil
  | EvCommit t => (n <= t)%nat
  | EvRollback t => (n <= t)%nat
  | _ => True
  end.

Section FurtherVocabulary.
Context {DS : Type}.

(** From a world that has begun at least [n] transactions, the calls
    made between [w] and [w'] are events in [P], and [w'] has begun at
    least as many transactions as [w]. *)
Definition emits_from (n : nat) (P : Event -> Prop) : relation (World DS) :=
  fun w w' =>
    (n <= next_tx w)%nat ->
    (next_tx w <= next_tx w')%nat /\
    exists evs, trace w' = trace w ++ evs /\ Forall P evs.

End FurtherVocabulary.

(** A unit of work that resolves a query the root handle has not seen and
    then fails. *)
Module MoreExamples.
Import Scripted Examples.

Definition counting_work (c : ptr) : Prog :=
  CallGet c 0%nat count 0%nat params_nil
    (fun _ => Return (Some (errors.New "user already exists"))).

End MoreExamples.

(** ** Frame reasoning *)
Section Respects.
Context {DS : Type} (R : relation (World DS)) `{!PreOrder R}.

Lemma respects_ret {A} (a : A) : respects R (ret a).
Proof. intros w. reflexivity. Qed.

Lemma respects_bind {A B} (m : M A) (k : A -> M B) :
  respects R m -> (forall a, respects R (k a)) -> respects R (bind m k).
Proof.
  intros Hm Hk w. unfold bind. specialize (Hm w).
  destruct (m w) as [[a|f] w1]; cbn in *; [|done].
  etransitivity; [exact Hm | apply Hk].
Qed.

Lemma respects_defer {A} (cleanup : M unit) (body : M A) :
  respects R cleanup -> respects R body -> respects R (defer cleanup body).
Proof.
  intros Hc Hb w. unfold defer. specialize (Hb w).
  destruct (body w) as [r w1]. specialize (Hc w1).
  destruct (cleanup w1) as [[[]|f] w2]; cbn in *; by etransitivity.
Qed.
End Respects.

(** ** Tactics *)

(** Equality of two worlds that differ by updates of their maps. *)
Ltac world_eq :=
  match goal with
  | w : World _ |- _ =>
      destruct w;
      unfold prepared, log, with_drv, with_mtxs, with_maps, with_dbs,
        with_next_stmt, with_next_tx in *;
      cbn in *; f_equal;
      rewrite ?insert_insert_eq; try (by apply insert_id); try done
  end.

(** A primitive of the monad relates the worlds around it by one of the
    frame relations: by cases on what it does. *)
Ltac prim :=
  intros w; unfold same_dbs, heap_same;
  repeat (cbn; match goal with
               | |- context [match ?x with _ => _ end] => destruct x eqn:?
               | |- context [let (_, _) := ?x in _] => destruct x eqn:?
               end); cbn; done.

Create HintDb frame.

(** A composed computation respects a relation when its parts do. *)
Ltac frame :=
  repeat first
    [ match goal with
      | |- respects ?R (ret _) => apply (respects_ret R)
      | |- respects ?R (bind _ _) => apply (respects_bind R); [|intros]
      | |- respects ?R (defer _ _) => apply (respects_defer R)
      | |- respects _ (match ?x with _ => _ end) => destruct x
      | |- respects _ (let _ := _ in _) => progress cbv zeta
      | |- respects _ (match ?x with _ => _ end _ _) => destruct x
      | |- respects _ (match ?x with _ => _ end _ _ _) => destruct x
      end
    | solve [auto with frame] ].

(** ** The statement cache *)

Section Cache.
Context {DS : Type} (E : Env DS).
Implicit Types (w : World DS) (d : ptr) (db : Database) (query : string).

Lemma relock w m :
  mtxs w !! m = Some false ->
  with_mtxs (<[m := false]> (<[m := true]> (mtxs w)))
    (with_mtxs (<[m := true]> (mtxs w)) w) = w.
Proof. intros H. world_eq. Qed.

(** [Stmt] in one equation, on a handle that is ready. *)
Lemma Stmt_eq w d db c query :
  dbs w !! d = Some db ->
  mtxs w !! stmtsMtx db = Some false ->
  maps w !! stmts db = Some c ->
  Stmt E d query w =
    match c !! query with
    | Some s => (Ok (inl s), w)
    | None =>
        match fst (drv_PrepareNamed E (X db) query (drv w)) with
        | Some err => (Ok (inr err), prepared E w (X db) query)
        | None =>
            let s := {| stmt_id := next_stmt w; stmt_tx := None |} in
            (Ok (inl s),
             with_maps (<[stmts db := <[query := s]> c]> (maps w))
               (with_next_stmt (S (next_stmt w)) (prepared E w (X db) query)))
        end
    end.
Proof.
  intros Hd Hm Hc.
  unfold Stmt, bind, deref, Lock, defer, map_get, map_contents, Unlock, ret.
  rewrite Hd, Hm. cbn. rewrite Hc. cbn.
  destruct (c !! query) as [s|] eqn:Hq.
  - cbn. rewrite lookup_insert_eq. by rewrite relock.
  - unfold PrepareNamed, map_set. cbn.
    destruct (drv_PrepareNamed E (X db) query (drv w)) as [[err|] ds] eqn:Hp; cbn.
    + rewrite lookup_insert_eq. f_equal. unfold prepared. rewrite Hp. world_eq.
    + rewrite Hc. cbn. rewrite lookup_insert_eq. f_equal.
      unfold prepared. rewrite Hp. world_eq.
Qed.

(** A cached query is answered from the cache: the world, and so the
    trace of driver calls, is unchanged. *)
Lemma Stmt_hit w d db query s :
  dbs w !! d = Some db ->
  mtxs w !! stmtsMtx db = Some false ->
  map_contents (stmts db) w !! query = Some s ->
  Stmt E d query w = (Ok (inl s), w).
Proof.
  intros Hd Hm Hq. unfold map_contents in Hq.
  destruct (maps w !! stmts db) as [c|] eqn:Hc; cbn in Hq; [|done].
  rewrite (Stmt_eq w d db c query Hd Hm Hc). by rewrite Hq.
Qed.

(** After a successful [Stmt] the handle is ready again and the query is
    in the cache. *)
Lemma Stmt_caches w d db query s w1 :
  ready w d db ->
  Stmt E d query w = (Ok (inl s), w1) ->
  ready w1 d db /\ map_contents (stmts db) w1 !! query = Some s.
Proof.
  intros (Hd & Hm & [c Hc]) HS.
  rewrite (Stmt_eq w d db c query Hd Hm Hc) in HS.
  destruct (c !! query) as [s'|] eqn:Hq.
  - inversion HS; subst. repeat split; eauto.
    unfold map_contents. by rewrite Hc.
  - destruct (fst (drv_PrepareNamed E (X db) query (drv w))); [done|].
    cbn in HS. inversion HS; subst; clear HS.
    unfold ready, map_contents. cbn. rewrite lookup_insert_eq. cbn.
    rewrite lookup_insert_eq. repeat split; eauto.
Qed.

End Cache.

(** ** Frames *)

Section Frame.
Context {DS : Type} (E : Env DS).
Implicit Types (w : World DS) (d : ptr) (db : Database).

Global Instance same_dbs_preorder : PreOrder (same_dbs (DS:=DS)).
Proof. split; [done | intros a b c H1 H2; unfold same_dbs in *; congruence]. Qed.

Lemma deref_same d : respects same_dbs (deref (DS:=DS) d).
Proof. unfold deref. prim. Qed.
Lemma Lock_same m : respects same_dbs (Lock (DS:=DS) m).
Proof. unfold Lock. prim. Qed.
Lemma Unlock_same m : respects same_dbs (Unlock (DS:=DS) m).
Proof. unfold Unlock. prim. Qed.
Lemma map_get_same m k : respects same_dbs (map_get (DS:=DS) m k).
Proof. unfold map_get. prim. Qed.
Lemma map_set_same m k s : respects same_dbs (map_set (DS:=DS) m k s).
Proof. unfold map_set. prim. Qed.
Lemma map_range_same m : respects same_dbs (map_range E m).
Proof. unfold map_range. prim. Qed.
Lemma PrepareNamed_same dbx q : respects same_dbs (PrepareNamed E dbx q).
Proof. unfold PrepareNamed. prim. Qed.
Lemma BeginTxx_same dbx ctx opts : respects same_dbs (BeginTxx E dbx ctx opts).
Proof. unfold BeginTxx. prim. Qed.
Lemma Commit_same t : respects same_dbs (Commit E t).
Proof. unfold Commit. prim. Qed.
Lemma Rollback_same t : respects same_dbs (Rollback E t).
Proof. unfold Rollback. prim. Qed.
Lemma StmtClose_same s : respects same_dbs (StmtClose E s).
Proof. unfold StmtClose. prim. Qed.
Lemma ExecContext_same s ctx p : respects same_dbs (ExecContext E s ctx p).
Proof. unfold ExecContext. prim. Qed.
Lemma GetContext_same s ctx dest p : respects same_dbs (GetContext E s ctx dest p).
Proof. unfold GetContext. prim. Qed.
Lemma SelectContext_same s ctx dest p :
  respects same_dbs (SelectContext E s ctx dest p).
Proof. unfold SelectContext. prim. Qed.

Hint Resolve deref_same Lock_same Unlock_same map_get_same map_set_same
  map_range_same PrepareNamed_same BeginTxx_same Commit_same Rollback_same
  StmtClose_same ExecContext_same GetContext_same SelectContext_same : frame.

Lemma Stmt_same d query : respects same_dbs (Stmt E d query).
Proof. unfold Stmt. frame. Qed.

Lemma Exec_same d ctx query params : respects same_dbs (Exec E d ctx query params).
Proof. pose proof Stmt_same. unfold Exec. frame. Qed.

Lemma Get_same d ctx query dest params :
  respects same_dbs (Get E d ctx query dest params).
Proof. pose proof Stmt_same. unfold Get. frame. Qed.

Lemma Select_same d ctx query dest params :
  respects same_dbs (Select E d ctx query dest params).
Proof. pose proof Stmt_same. unfold Select. frame. Qed.

Lemma close_range_same l : respects same_dbs (close_range E l).
Proof. induction l as [|[k s] l IH]; cbn; frame. Qed.

Lemma Close_same d : respects same_dbs (Close E d).
Proof. pose proof close_range_same. unfold Close. frame. Qed.

(** *** What [Transact] does, case by case *)

Lemma BeginTxx_Ok dbx ctx opts w :
  exists r w1, BeginTxx E dbx ctx opts w = (Ok r, w1).
Proof.
  unfold BeginTxx. destruct (drv_BeginTxx E dbx ctx opts (drv w)) as [[err|] ds]; eauto.
Qed.

Lemma Transact_nil d ctx opts f w :
  dbs w !! d = None -> Transact E d ctx opts f w = (Abort NilDereference, w).
Proof. intros H. unfold Transact, bind, deref. by rewrite H. Qed.

Lemma Transact_nested d db ctx opts f w :
  dbs w !! d = Some db -> is_Some (tx db) ->
  Transact E d ctx opts f w =
    (Ok (Some (errors.New "nested tx not currently supported")), w).
Proof.
  intros H [t Ht]. unfold Transact, bind, deref. rewrite H. by rewrite Ht.
Qed.

Lemma Transact_begin_fails d db ctx opts f w err w1 :
  dbs w !! d = Some db -> tx db = None ->
  BeginTxx E (X db) ctx opts w = (Ok (inr err), w1) ->
  Transact E d ctx opts f w = (Ok (Some err), w1).
Proof.
  intros H Ht Hb. unfold Transact, bind, deref. rewrite H, Ht, Hb. done.
Qed.

Lemma Transact_begun d db ctx opts f w t w1 :
  dbs w !! d = Some db -> tx db = None ->
  BeginTxx E (X db) ctx opts w = (Ok (inl t), w1) ->
  Transact E d ctx opts f w =
    bind (f (child_ptr w1)) (conclude E t (GoInt.add (txLevel db) 1))
      (callback_world w1 (child_of db t)).
Proof.
  intros H Ht Hb. unfold Transact at 1. unfold bind at 1, deref at 1.
  rewrite H, Ht. unfold bind at 1. rewrite Hb.
  pose proof (BeginTxx_same (X db) ctx opts w) as Hs.
  rewrite Hb in Hs. unfold same_dbs in Hs. cbn in Hs.
  unfold bind at 1, deref. rewrite Hs, H.
  unfold bind at 1, alloc_Database. unfold bind at 1.
  unfold bind, conclude, callback_world, child_ptr, child_of.
  destruct (f _ _) as [[[e|]|] w3]; try done.
Qed.

(** *** Handles are only ever added *)

Global Instance grows_preorder : PreOrder (grows (DS:=DS)).
Proof.
  split.
  - intros w. split; [done | auto].
  - intros a b c [H1 H2] [H3 H4]. split; [by etransitivity | auto].
Qed.

Lemma same_grows {A} (m : M (DS:=DS) A) :
  respects same_dbs m -> respects grows m.
Proof.
  intros H w. specialize (H w). unfold same_dbs in H. split.
  - by rewrite H.
  - unfold handles_ok. by rewrite H.
Qed.

Lemma alloc_Database_grows db :
  handle_ok db -> respects grows (alloc_Database (DS:=DS) db).
Proof.
  intros Hok w. unfold alloc_Database. cbn.
  assert (dbs w !! fresh (dom (dbs w)) = None) as Hfresh
    by (apply not_elem_of_dom, is_fresh).
  split.
  - by apply insert_subseteq.
  - intros Hw d' db'. cbn. rewrite lookup_insert. case_decide; intros ?; simplify_eq; eauto.
Qed.

Lemma New_grows dbx : respects grows (New (DS:=DS) dbx).
Proof.
  unfold New. apply (respects_bind grows).
  { apply same_grows. unfold alloc_Mutex. by intros w. }
  intros m. apply (respects_bind grows).
  { apply same_grows. unfold make_map. by intros w. }
  intros s. apply alloc_Database_grows. left. done.
Qed.

Lemma conclude_same t lvl e : respects same_dbs (conclude E t lvl e).
Proof. unfold conclude. frame. Qed.

Lemma callback_world_grows w1 db t d :
  dbs w1 !! d = Some db -> tx db = None ->
  grows w1 (callback_world w1 (child_of db t)).
Proof.
  intros Hd Ht. unfold callback_world, child_ptr. cbn.
  assert (dbs w1 !! fresh (dom (dbs w1)) = None) as Hfresh
    by (apply not_elem_of_dom, is_fresh).
  split; cbn.
  - by apply insert_subseteq.
  - intros Hw d' db'. cbn. rewrite lookup_insert. case_decide; intros ?; simplify_eq; eauto.
    right. split; [by eexists|]. cbn.
    destruct (Hw d db Hd) as [[_ ->]|[[? ?] _]]; [done | congruence].
Qed.

Lemma Transact_grows d ctx opts f :
  (forall c, respects grows (f c)) -> respects grows (Transact E d ctx opts f).
Proof.
  intros Hf w.
  destruct (dbs w !! d) as [db|] eqn:Hd;
    [|rewrite Transact_nil by done; reflexivity].
  destruct (tx db) as [t0|] eqn:Ht;
    [rewrite (Transact_nested d db) by (by rewrite ?Ht); reflexivity|].
  destruct (BeginTxx_Ok (X db) ctx opts w) as ([t|err] & w1 & Hb).
  - rewrite (Transact_begun d db ctx opts f w t w1 Hd Ht Hb).
    pose proof (BeginTxx_same (X db) ctx opts w) as Hs.
    rewrite Hb in Hs. cbn in Hs.
    transitivity w1.
    { pose proof (same_grows _ (BeginTxx_same (X db) ctx opts) w) as Hg.
      by rewrite Hb in Hg. }
    transitivity (callback_world w1 (child_of db t)).
    { apply (callback_world_grows w1 db t d); [|done].
      unfold same_dbs in Hs. by rewrite Hs. }
    apply (respects_bind grows); [apply Hf|].
    intros e. apply same_grows, conclude_same.
  - rewrite (Transact_begin_fails d db ctx opts f w err w1 Hd Ht Hb).
    pose proof (same_grows _ (BeginTxx_same (X db) ctx opts) w) as Hg.
    by rewrite Hb in Hg.
Qed.

Lemma run_grows p : respects grows (run E p).
Proof.
  induction p; cbn [run].
  - apply (respects_ret grows).
  - apply (respects_bind grows); [apply New_grows | auto].
  - apply (respects_bind grows); [apply same_grows, Stmt_same | auto].
  - apply (respects_bind grows); [apply same_grows, Exec_same | auto].
  - apply (respects_bind grows); [apply same_grows, Get_same | auto].
  - apply (respects_bind grows); [apply same_grows, Select_same | auto].
  - apply (respects_bind grows); [apply Transact_grows; auto | auto].
  - apply (respects_bind grows); [apply same_grows, Close_same | auto].
Qed.
End Frame.

(** ** Error messages *)

Section Messages.
Lemma append_nil_r (s : string) : s +:+ "" = s.
Proof.
  induction s as [|a s IH]; [reflexivity|].
  change (String a (s +:+ "") = String a s). by rewrite IH.
Qed.

Lemma append_assoc (a b c : string) : (a +:+ b) +:+ c = a +:+ b +:+ c.
Proof.
  induction a as [|x a IH]; [reflexivity|].
  change (String x ((a +:+ b) +:+ c) = String x (a +:+ b +:+ c)). by rewrite IH.
Qed.

Lemma prefix_append (s t : string) : String.prefix s (s +:+ t) = true.
Proof.
  induction s as [|a s IH].
  - by destruct t.
  - change (String.prefix (String a s) (String a (s +:+ t)) = true). cbn.
    destruct (Ascii.ascii_dec a a); [exact IH | done].
Qed.

Lemma tx_level_msg_split lvl suffix :
  tx_level_msg lvl suffix = tx_level_msg lvl "" +:+ suffix.
Proof.
  unfold tx_level_msg. by rewrite append_nil_r, !append_assoc.
Qed.

(** An error wrapped by [Transact] starts with the depth annotation. *)
Lemma wrapped_has_tx_level lvl suffix cause :
  has_tx_level lvl (withMessage cause (tx_level_msg lvl suffix)) = true.
Proof.
  unfold has_tx_level. cbn [errors.Error].
  rewrite (tx_level_msg_split lvl suffix), append_assoc.
  apply prefix_append.
Qed.
End Messages.

(** ** Close *)

Section CloseLoop.
Context {DS : Type} (E : Env DS).
Implicit Types (w : World DS) (l : list (string * NamedStmt)).

(** The loop of [Close] does not look at the mutexes. *)
Lemma close_range_with_mtxs l h w :
  close_range E l (with_mtxs h w) =
    (fst (close_range E l w), with_mtxs h (snd (close_range E l w))).
Proof.
  revert w. induction l as [|[k s] l IH]; intros w; [done|].
  cbn [close_range]. unfold bind, StmtClose. cbn.
  destruct (drv_StmtClose E s (drv w)) as [[err|] ds]; [done|].
  apply (IH (log (EvStmtClose s) (with_drv ds w))).
Qed.

(** What the loop of [Close] does: it releases the entries of [l] in
    order up to the first failure, which it returns, and leaves handles,
    mutexes and maps as they are. *)
Lemma close_range_spec l w :
  exists attempted rest,
    l = attempted ++ rest /\
    trace (snd (close_range E l w)) =
      trace w ++ map (fun e => EvStmtClose e.2) attempted /\
    dbs (snd (close_range E l w)) = dbs w /\
    mtxs (snd (close_range E l w)) = mtxs w /\
    maps (snd (close_range E l w)) = maps w /\
    match fst (close_range E l w) with
    | Ok None => rest = [] /\ is_Some (closes_ok E attempted (drv w))
    | Ok (Some err) =>
        exists pre k s ds1,
          attempted = pre ++ [(k, s)] /\
          closes_ok E pre (drv w) = Some ds1 /\
          fst (drv_StmtClose E s ds1) = Some err
    | Abort _ => False
    end.
Proof.
  revert w. induction l as [|[k s] l IH]; intros w.
  - exists [], []. cbn. rewrite app_nil_r. eauto 10.
  - cbn [close_range]. unfold bind, StmtClose.
    destruct (drv_StmtClose E s (drv w)) as [[err|] ds] eqn:Hc.
    + exists [(k, s)], l. cbn. do 5 (split; [done|]).
      exists [], k, s, (drv w). cbn. by rewrite Hc.
    + destruct (IH (log (EvStmtClose s) (with_drv ds w)))
        as (att & rest & -> & Htr & Hdb & Hmx & Hmp & Hr).
      exists ((k, s) :: att), rest. cbn [map app].
      rewrite Htr. cbn. rewrite <- app_assoc. cbn.
      do 5 (split; [done|]).
      destruct (fst (close_range E (att ++ rest) _)) as [[err|]|]; [| |done].
      * destruct Hr as (pre & k' & s' & ds1 & -> & Hok & Herr).
        exists ((k, s) :: pre), k', s', ds1. cbn. by rewrite Hc.
      * destruct Hr as [-> Hok]. split; [done|]. by rewrite Hc.
Qed.

Lemma close_range_mtxs l w : mtxs (snd (close_range E l w)) = mtxs w.
Proof. by destruct (close_range_spec l w) as (? & ? & _ & _ & _ & ? & _). Qed.

(** [Close] on a ready handle is its loop over the entries of the map in
    [range] order. *)
Lemma Close_eq w d db :
  ready w d db ->
  Close E d w =
    close_range E (range_order E (drv w) (map_contents (stmts db) w)) w.
Proof.
  intros (Hd & Hm & _).
  unfold Close, bind at 1, deref. rewrite Hd.
  unfold bind at 1, Lock. rewrite Hm.
  unfold defer, bind at 1, map_range.
  change (drv (with_mtxs _ w)) with (drv w).
  change (map_contents (stmts db) (with_mtxs _ w))
    with (map_contents (stmts db) w).
  rewrite close_range_with_mtxs.
  set (l := range_order E (drv w) (map_contents (stmts db) w)).
  pose proof (close_range_mtxs l w) as Hk.
  destruct (close_range E l w) as [r w'] eqn:Hl. cbn [fst snd] in *.
  unfold Unlock. cbn. rewrite lookup_insert_eq. f_equal.
  destruct w'; unfold with_mtxs; cbn in *. f_equal.
  rewrite insert_insert_eq, Hk. by apply insert_id.
Qed.
End CloseLoop.

(** ** Worlds reached through the package *)

Section WellFormed.
Context {DS : Type} (E : Env DS).
Implicit Types (w : World DS) (d : ptr) (db : Database).

Global Instance heap_same_preorder : PreOrder (heap_same (DS:=DS)).
Proof.
  split; [done|].
  intros a b c (? & ? & ? & ?) (? & ? & ? & ?). unfold heap_same. by repeat split; congruence.
Qed.

Lemma maps_grow_same w w' : maps w' = maps w -> maps_grow w w'.
Proof. intros H m c Hc. exists c. by rewrite H. Qed.

Global Instance keeps_sound_preorder : PreOrder (keeps_sound (DS:=DS)).
Proof.
  split.
  - intros w. split; [done|]. intros Hs. split; [done|by apply maps_grow_same].
  - intros a b c [H1 H2] [H3 H4]. split; [by etransitivity|].
    intros Ha. destruct (H2 Ha) as [Hb Hab]. destruct (H4 Hb) as [Hc Hbc].
    split; [done|]. intros m ca Hm.
    destruct (Hab m ca Hm) as (cb & Hmb & Hsub1).
    destruct (Hbc m cb Hmb) as (cc & Hmc & Hsub2).
    exists cc. split; [done|by etransitivity].
Qed.

Lemma heap_same_sound w w' : heap_same w w' -> sound w -> sound w'.
Proof.
  intros (Hd & Hm & Hp & Hn) [Hr Hc]. split.
  - intros d db. rewrite Hd. intros H. destruct (Hr d db H) as (? & ? & ?).
    unfold ready. by rewrite Hd, Hm, Hp.
  - intros m c. rewrite Hp, Hn. apply Hc.
Qed.

Lemma heap_same_keeps_world w w' : heap_same w w' -> keeps_sound w w'.
Proof.
  intros H. split.
  - destruct H as (-> & _). done.
  - intros Hs. split; [by apply (heap_same_sound w)|].
    apply maps_grow_same. by destruct H as (_ & _ & ? & _).
Qed.

Lemma heap_same_keeps {A} (m : M (DS:=DS) A) :
  respects heap_same m -> respects keeps_sound m.
Proof. intros H w. apply heap_same_keeps_world, H. Qed.

Lemma deref_heap d : respects heap_same (deref (DS:=DS) d).
Proof. unfold deref. prim. Qed.
Lemma BeginTxx_heap dbx ctx opts : respects heap_same (BeginTxx E dbx ctx opts).
Proof. unfold BeginTxx. prim. Qed.
Lemma Commit_heap t : respects heap_same (Commit E t).
Proof. unfold Commit. prim. Qed.
Lemma Rollback_heap t : respects heap_same (Rollback E t).
Proof. unfold Rollback. prim. Qed.
Lemma StmtClose_heap s : respects heap_same (StmtClose E s).
Proof. unfold StmtClose. prim. Qed.
Lemma ExecContext_heap s ctx p : respects heap_same (ExecContext E s ctx p).
Proof. unfold ExecContext. prim. Qed.
Lemma GetContext_heap s ctx dest p : respects heap_same (GetContext E s ctx dest p).
Proof. unfold GetContext. prim. Qed.
Lemma SelectContext_heap s ctx dest p :
  respects heap_same (SelectContext E s ctx dest p).
Proof. unfold SelectContext. prim. Qed.

Hint Resolve deref_heap BeginTxx_heap Commit_heap Rollback_heap StmtClose_heap
  ExecContext_heap GetContext_heap SelectContext_heap : frame.

Lemma conclude_heap t lvl e : respects heap_same (conclude E t lvl e).
Proof. unfold conclude. frame. Qed.

Lemma close_range_heap l : respects heap_same (close_range E l).
Proof. induction l as [|[k s] l IH]; cbn; frame. Qed.

(** *** [Stmt] *)

Lemma Stmt_abort d query w :
  dbs w !! d = None -> Stmt E d query w = (Abort NilDereference, w).
Proof. intros H. unfold Stmt, bind, deref. by rewrite H. Qed.

Lemma prepared_heap w dbx query : heap_same w (prepared E w dbx query).
Proof. done. Qed.

Lemma Stmt_sound d query w : sound w -> sound (snd (Stmt E d query w)).
Proof.
  intros Hs. destruct (dbs w !! d) as [db|] eqn:Hd;
    [|by rewrite Stmt_abort].
  destruct (proj1 Hs d db Hd) as (_ & Hm & [c Hc]).
  rewrite (Stmt_eq E w d db c query Hd Hm Hc).
  destruct (c !! query) as [s|] eqn:Hq; [done|].
  destruct (fst (drv_PrepareNamed E (X db) query (drv w))) as [err|].
  { cbn. apply (heap_same_sound w); [apply prepared_heap | done]. }
  cbn. destruct Hs as [Hr Hk]. split.
  - intros d' db' Hd'. destruct (Hr d' db' Hd') as (? & ? & Hp).
    repeat split; [done|done|]. cbn.
    rewrite lookup_insert. case_decide; [by eexists|done].
  - intros m c'. cbn. rewrite lookup_insert. case_decide as Hm'.
    + intros [= <-]. destruct (Hk _ _ Hc) as [Hids Hinj]. split.
      * intros q s. rewrite lookup_insert. case_decide.
        { intros [= <-]. cbn. split; [lia|done]. }
        intros Hqs. destruct (Hids q s Hqs). split; [lia|done].
      * intros q1 q2 s. rewrite !lookup_insert.
        repeat case_decide; subst; try done.
        { intros [= <-] H2. destruct (Hids q2 _ H2) as [Hlt _]. cbn in Hlt. lia. }
        { intros H1 [= <-]. destruct (Hids q1 _ H1) as [Hlt _]. cbn in Hlt. lia. }
        apply Hinj.
    + intros Hc'. destruct (Hk _ _ Hc') as [Hids Hinj]. split; [|done].
      intros q s Hqs. destruct (Hids q s Hqs). split; [lia|done].
Qed.

Lemma Stmt_maps_grow d query w : sound w -> maps_grow w (snd (Stmt E d query w)).
Proof.
  intros Hs. destruct (dbs w !! d) as [db|] eqn:Hd;
    [|rewrite Stmt_abort by done; by apply maps_grow_same].
  destruct (proj1 Hs d db Hd) as (_ & Hm & [c Hc]).
  rewrite (Stmt_eq E w d db c query Hd Hm Hc).
  destruct (c !! query) as [s|] eqn:Hq; [by apply maps_grow_same|].
  destruct (fst (drv_PrepareNamed E (X db) query (drv w))) as [err|];
    [by apply maps_grow_same|].
  intros m c' Hm'. cbn. rewrite lookup_insert. case_decide; [|by exists c'].
  subst m. rewrite Hc in Hm'. injection Hm' as <-.
  eexists. split; [done|]. by apply insert_subseteq.
Qed.

Lemma Stmt_keeps d query : respects keeps_sound (Stmt E d query).
Proof.
  intros w. split.
  - pose proof (Stmt_same E d query w) as H. unfold same_dbs in H. by rewrite H.
  - intros Hs. split; [by apply Stmt_sound | by apply Stmt_maps_grow].
Qed.

(** *** The other operations *)

Lemma Exec_keeps d ctx query params :
  respects keeps_sound (Exec E d ctx query params).
Proof.
  unfold Exec. apply (respects_bind keeps_sound); [apply Stmt_keeps|].
  intros [s|err]; [|apply (respects_ret keeps_sound)].
  apply heap_same_keeps. frame.
Qed.

Lemma Get_keeps d ctx query dest params :
  respects keeps_sound (Get E d ctx query dest params).
Proof.
  unfold Get. apply (respects_bind keeps_sound); [apply Stmt_keeps|].
  intros [s|err]; [|apply (respects_ret keeps_sound)].
  apply heap_same_keeps. frame.
Qed.

Lemma Select_keeps d ctx query dest params :
  respects keeps_sound (Select E d ctx query dest params).
Proof.
  unfold Select. apply (respects_bind keeps_sound); [apply Stmt_keeps|].
  intros [s|err]; [|apply (respects_ret keeps_sound)].
  apply heap_same_keeps. frame.
Qed.

Lemma Close_abort d w :
  dbs w !! d = None -> Close E d w = (Abort NilDereference, w).
Proof. intros H. unfold Close, bind, deref. by rewrite H. Qed.

Lemma Close_keeps d : respects keeps_sound (Close E d).
Proof.
  intros w. destruct (dbs w !! d) as [db|] eqn:Hd;
    [|rewrite Close_abort by done; reflexivity].
  split.
  { pose proof (Close_same E d w) as H. unfold same_dbs in H. by rewrite H. }
  intros Hs. rewrite (Close_eq E w d db (proj1 Hs d db Hd)).
  by apply (heap_same_keeps _ (close_range_heap _) w).
Qed.

Lemma New_keeps dbx : respects keeps_sound (New (DS:=DS) dbx).
Proof.
  intros w. split; [apply (New_grows dbx w)|].
  intros [Hr Hk]. unfold New, bind, alloc_Mutex, make_map, alloc_Database. cbn.
  assert (mtxs w !! fresh (dom (mtxs w)) = None) as Hfm
    by (apply not_elem_of_dom, is_fresh).
  assert (maps w !! fresh (dom (maps w)) = None) as Hfp
    by (apply not_elem_of_dom, is_fresh).
  split; [split|].
  - intros d db. cbn. rewrite lookup_insert. case_decide.
    + intros [= <-]. subst d. unfold ready. cbn.
      split; [apply lookup_insert_eq|].
      split; [apply lookup_insert_eq|].
      eexists. apply lookup_insert_eq.
    + intros Hd. destruct (Hr d db Hd) as (_ & Hm & [c Hc]).
      unfold ready. cbn. rewrite lookup_insert_ne by done.
      rewrite !lookup_insert_ne by congruence. eauto.
  - intros m c. cbn. rewrite lookup_insert. case_decide.
    + intros [= <-]. split; intros *; by rewrite lookup_empty.
    + apply Hk.
  - intros m c Hm. exists c. cbn. split; [|done].
    rewrite lookup_insert_ne; [done|congruence].
Qed.

Lemma callback_world_keeps w1 db t d :
  dbs w1 !! d = Some db ->
  keeps_sound w1 (callback_world w1 (child_of db t)).
Proof.
  intros Hd.
  assert (dbs w1 !! child_ptr w1 = None) as Hfresh
    by (apply not_elem_of_dom, is_fresh).
  split; [by apply insert_subseteq|].
  intros [Hr Hk]. split; [|by apply maps_grow_same].
  split; [|exact Hk].
  intros d' db'. cbn. rewrite lookup_insert. case_decide.
  - intros [= <-]. subst d'. destruct (Hr d db Hd) as (_ & Hm & Hp).
    unfold ready. cbn. by rewrite lookup_insert_eq.
  - intros Hd'. destruct (Hr d' db' Hd') as (_ & Hm & Hp).
    unfold ready. cbn. by rewrite lookup_insert_ne.
Qed.

Lemma Transact_keeps d ctx opts f :
  (forall c, respects keeps_sound (f c)) ->
  respects keeps_sound (Transact E d ctx opts f).
Proof.
  intros Hf w.
  destruct (dbs w !! d) as [db|] eqn:Hd;
    [|rewrite Transact_nil by done; reflexivity].
  destruct (tx db) as [t0|] eqn:Ht;
    [rewrite (Transact_nested E d db) by (by rewrite ?Ht); reflexivity|].
  destruct (BeginTxx_Ok E (X db) ctx opts w) as ([t|err] & w1 & Hb).
  - rewrite (Transact_begun E d db ctx opts f w t w1 Hd Ht Hb).
    pose proof (heap_same_keeps _ (BeginTxx_heap (X db) ctx opts) w) as Hg.
    rewrite Hb in Hg. cbn in Hg.
    pose proof (BeginTxx_same E (X db) ctx opts w) as Hs.
    rewrite Hb in Hs. unfold same_dbs in Hs. cbn in Hs.
    transitivity w1; [exact Hg|].
    transitivity (callback_world w1 (child_of db t)).
    { apply (callback_world_keeps w1 db t d). by rewrite Hs. }
    apply (respects_bind keeps_sound); [apply Hf|].
    intros e. apply heap_same_keeps, conclude_heap.
  - rewrite (Transact_begin_fails E d db ctx opts f w err w1 Hd Ht Hb).
    pose proof (heap_same_keeps _ (BeginTxx_heap (X db) ctx opts) w) as Hg.
    by rewrite Hb in Hg.
Qed.

Lemma run_keeps p : respects keeps_sound (run E p).
Proof.
  induction p; cbn [run].
  - apply (respects_ret keeps_sound).
  - apply (respects_bind keeps_sound); [apply New_keeps | auto].
  - apply (respects_bind keeps_sound); [apply Stmt_keeps | auto].
  - apply (respects_bind keeps_sound); [apply Exec_keeps | auto].
  - apply (respects_bind keeps_sound); [apply Get_keeps | auto].
  - apply (respects_bind keeps_sound); [apply Select_keeps | auto].
  - apply (respects_bind keeps_sound); [apply Transact_keeps; auto | auto].
  - apply (respects_bind keeps_sound); [apply Close_keeps | auto].
Qed.

(** X18.  In every world a caller can bring about from the initial one, every
    handle is ready for the next call and no cache holds a statement under
    two queries: the premises of the statements about [Stmt] and [Close]
    hold wherever the package is used through its exported operations. *)
Theorem reachable_worlds_sound p ds :
  let w := snd (run E p (init ds)) in
  (forall d db, dbs w !! d = Some db -> ready w d db) /\
  (forall d db q1 q2 s,
      dbs w !! d = Some db ->
      map_contents (stmts db) w !! q1 = Some s ->
      map_contents (stmts db) w !! q2 = Some s -> q1 = q2).
Proof.
  intros w.
  assert (sound (init ds)) as Hi.
  { split; [intros d db|intros m c]; cbn; by rewrite lookup_empty. }
  destruct (proj2 (run_keeps p (init ds)) Hi) as [[Hr Hk] _]. fold w in Hr, Hk.
  split; [exact Hr|].
  intros d db q1 q2 s Hd. destruct (Hr d db Hd) as (_ & _ & [c Hc]).
  unfold map_contents. rewrite Hc. cbn. apply (Hk _ _ Hc).
Qed.

(** The cache is append-only: whatever a caller does next, a query that
    is in the cache of a handle stays there with its statement, and
    [Stmt] keeps answering it from the cache. *)
Theorem cache_entries_persist p w d db query s :
  sound w ->
  dbs w !! d = Some db ->
  map_contents (stmts db) w !! query = Some s ->
  let w' := snd (run E p w) in
  sound w' /\
  dbs w' !! d = Some db /\
  map_contents (stmts db) w' !! query = Some s /\
  Stmt E d query w' = (Ok (inl s), w').
Proof.
  intros Hs Hd Hq w'.
  destruct (run_keeps p w) as [Hsub Hk]. destruct (Hk Hs) as [Hs' Hg].
  fold w' in Hsub, Hs', Hg.
  assert (dbs w' !! d = Some db) as Hd' by (by apply (lookup_weaken _ _ _ _ Hd)).
  assert (map_contents (stmts db) w' !! query = Some s) as Hq'.
  { unfold map_contents in *.
    destruct (maps w !! stmts db) as [c|] eqn:Hc; cbn in Hq; [|done].
    destruct (Hg _ _ Hc) as (c' & -> & Hsub'). cbn.
    by apply (lookup_weaken _ _ _ _ Hq). }
  do 3 (split; [done|]).
  destruct (proj1 Hs' d db Hd') as (_ & Hm & _).
  by apply (Stmt_hit E w' d db).
Qed.
End WellFormed.

(** ** The claims *)

Section Claims.
Context {DS : Type} (E : Env DS).
Implicit Types (w : World DS) (d : ptr) (db : Database) (query : string).

(** C6. A query that is absent from the cache is prepared against the
    base connection [X], whether or not the handle holds a transaction:
    the one driver call is [PrepareNamed] on [X].  When the driver
    refuses the query, [Stmt] returns the driver's error and no map
    changes; when it accepts, the new statement, bound to no
    transaction, is stored under the query and returned. *)
Theorem Stmt_prepares_absent_query w d db c query :
  dbs w !! d = Some db ->
  mtxs w !! stmtsMtx db = Some false ->
  maps w !! stmts db = Some c ->
  c !! query = None ->
  exists r w',
    Stmt E d query w = (Ok r, w') /\
    trace w' = trace w ++ [EvPrepareNamed (X db) query] /\
    dbs w' = dbs w /\ mtxs w' = mtxs w /\
    match fst (drv_PrepareNamed E (X db) query (drv w)) with
    | Some err => r = inr err /\ maps w' = maps w
    | None =>
        exists s, r = inl s /\ stmt_tx s = None /\
          maps w' = <[stmts db := <[query := s]> c]> (maps w) /\
          map_contents (stmts db) w' !! query = Some s
    end.
Proof.
  intros Hd Hm Hc Hq. rewrite (Stmt_eq E w d db c query Hd Hm Hc), Hq.
  destruct (fst (drv_PrepareNamed E (X db) query (drv w))) as [err|].
  - do 2 eexists. split; [reflexivity|]. by cbn.
  - do 2 eexists. split; [reflexivity|]. cbn. do 3 (split; [done|]).
    eexists. do 3 (split; [reflexivity|]). unfold map_contents. cbn.
    rewrite lookup_insert_eq. cbn. by rewrite lookup_insert_eq.
Qed.

(** C3. On a ready handle, a query that is in the cache is returned
    from the cache, by any number of calls, and the world, with its trace
    of driver calls, stays as it is.  A query that is absent, and that
    the driver accepts, is prepared by the first call and answered from
    the cache by every later one: any number of calls, at least one,
    return the same statement, and over all of them the trace gains one
    [PrepareNamed] event.  In a sound world the statement is returned
    also after whatever the caller does between the calls. *)
Theorem Stmt_cache_identity w d db query :
  ready w d db ->
  (forall s,
      map_contents (stmts db) w !! query = Some s ->
      Stmt E d query w = (Ok (inl s), w) /\
      (forall n, Stmt_times E n d query w = (Ok (repeat (inl s) n), w)) /\
      (sound w ->
       forall p, Stmt E d query (snd (run E p w)) = (Ok (inl s), snd (run E p w)))) /\
  (map_contents (stmts db) w !! query = None ->
   fst (drv_PrepareNamed E (X db) query (drv w)) = None ->
   exists s w1,
     Stmt E d query w = (Ok (inl s), w1) /\
     map_contents (stmts db) w1 !! query = Some s /\
     trace w1 = trace w ++ [EvPrepareNamed (X db) query] /\
     (forall n, Stmt_times E n d query w1 = (Ok (repeat (inl s) n), w1)) /\
     (forall n, Stmt_times E (S n) d query w = (Ok (repeat (inl s) (S n)), w1)) /\
     (sound w ->
      forall p, Stmt E d query (snd (run E p w1)) = (Ok (inl s), snd (run E p w1)))).
Proof.
  intros Hr.
  assert (forall w0 s, ready w0 d db ->
            map_contents (stmts db) w0 !! query = Some s ->
            forall n, Stmt_times E n d query w0 = (Ok (repeat (inl s) n), w0))
    as Hrep.
  { intros w0 s (Hd0 & Hm0 & _) Hq0.
    induction n as [|n IH]; [done|]. cbn [Stmt_times repeat]. unfold bind at 1.
    rewrite (Stmt_hit E w0 d db query s Hd0 Hm0 Hq0).
    unfold bind at 1. by rewrite IH. }
  split.
  - intros s Hq. split; [|split].
    + destruct Hr as (Hd & Hm & _). by apply (Stmt_hit E w d db).
    + by apply Hrep.
    + intros Hs p. destruct Hr as (Hd & _).
      by destruct (cache_entries_persist E p w d db query s Hs Hd Hq)
        as (_ & _ & _ & ?).
  - intros Hq Hacc.
    assert (exists s w1,
              Stmt E d query w = (Ok (inl s), w1) /\
              trace w1 = trace w ++ [EvPrepareNamed (X db) query])
      as (s & w1 & HS & Ht).
    { destruct Hr as (Hd & Hm & [c Hc]).
      rewrite (Stmt_eq E w d db c query Hd Hm Hc).
      unfold map_contents in Hq. rewrite Hc in Hq. cbn in Hq.
      rewrite Hq, Hacc. by do 2 eexists. }
    destruct (Stmt_caches E w d db query s w1 Hr HS) as [Hr1 Hq1].
    exists s, w1. do 3 (split; [done|]).
    split; [by apply Hrep|]. split.
    + intros n. cbn [Stmt_times repeat]. unfold bind at 1. rewrite HS.
      unfold bind at 1. by rewrite (Hrep w1 s Hr1 Hq1 n).
    + intros Hs p.
      assert (sound w1) as Hs1.
      { pose proof (proj2 (Stmt_keeps E d query w) Hs) as [H _]. by rewrite HS in H. }
      destruct Hr1 as (Hd1 & _).
      by destruct (cache_entries_persist E p w1 d db query s Hs1 Hd1 Hq1)
        as (_ & _ & _ & ?).
Qed.

Lemma Exec_resolved w d db ctx query params s w1 :
  dbs w1 !! d = Some db ->
  Stmt E d query w = (Ok (inl s), w1) ->
  Exec E d ctx query params w =
    ExecContext E (target db s) ctx (default_params params) w1.
Proof.
  intros Hd HS. unfold Exec, target, bind, deref. rewrite HS, Hd.
  by destruct (tx db).
Qed.

Lemma Get_resolved w d db ctx query dest params s w1 :
  dbs w1 !! d = Some db ->
  Stmt E d query w = (Ok (inl s), w1) ->
  Get E d ctx query dest params w =
    GetContext E (target db s) ctx dest (default_params params) w1.
Proof.
  intros Hd HS. unfold Get, target, bind, deref. rewrite HS, Hd.
  destruct (tx db); unfold GetContext;
    destruct (drv_GetContext _ _ _ _ _ _) as [[?|] ?]; reflexivity.
Qed.

Lemma Select_resolved w d db ctx query dest params s w1 :
  dbs w1 !! d = Some db ->
  Stmt E d query w = (Ok (inl s), w1) ->
  Select E d ctx query dest params w =
    SelectContext E (target db s) ctx dest (default_params params) w1.
Proof.
  intros Hd HS. unfold Select, target, bind, deref. rewrite HS, Hd.
  destruct (tx db); unfold SelectContext;
    destruct (drv_SelectContext _ _ _ _ _ _) as [[?|] ?]; reflexivity.
Qed.

(** C5. When the statement resolves, [Exec], [Get] and [Select] run it
    through the driver on [target]: the statement re-bound to the
    transaction when the handle holds one, the prepared statement itself
    otherwise. *)
Theorem operations_run_on_target w d db ctx query dest params s w1 :
  dbs w !! d = Some db ->
  Stmt E d query w = (Ok (inl s), w1) ->
  Exec E d ctx query params w =
    ExecContext E (target db s) ctx (default_params params) w1 /\
  Get E d ctx query dest params w =
    GetContext E (target db s) ctx dest (default_params params) w1 /\
  Select E d ctx query dest params w =
    SelectContext E (target db s) ctx dest (default_params params) w1 /\
  trace (snd (Exec E d ctx query params w)) =
    trace w1 ++ [EvExecContext (target db s) ctx (default_params params)] /\
  trace (snd (Get E d ctx query dest params w)) =
    trace w1 ++ [EvGetContext (target db s) ctx dest (default_params params)] /\
  trace (snd (Select E d ctx query dest params w)) =
    trace w1 ++ [EvSelectContext (target db s) ctx dest (default_params params)] /\
  (forall t, tx db = Some t -> target db s = Tx_NamedStmt t s) /\
  (tx db = None -> target db s = s).
Proof.
  intros Hd HS.
  pose proof (Stmt_same E d query w) as Hs. rewrite HS in Hs.
  unfold same_dbs in Hs. cbn in Hs.
  assert (dbs w1 !! d = Some db) as Hd1 by (by rewrite Hs).
  split; [by apply Exec_resolved|].
  split; [by apply Get_resolved|].
  split; [by apply Select_resolved|].
  split.
  { rewrite (Exec_resolved w d db ctx query params s w1 Hd1 HS).
    unfold ExecContext. by destruct (drv_ExecContext _ _ _ _ _). }
  split.
  { rewrite (Get_resolved w d db ctx query dest params s w1 Hd1 HS).
    unfold GetContext. by destruct (drv_GetContext _ _ _ _ _ _). }
  split.
  { rewrite (Select_resolved w d db ctx query dest params s w1 Hd1 HS).
    unfold SelectContext. by destruct (drv_SelectContext _ _ _ _ _ _). }
  unfold target. split; [by intros t ->|by intros ->].
Qed.

(** C2. On a handle that holds a transaction, [Transact] returns the
    error [nested tx not currently supported] and leaves the world as it
    is, whatever the callback: no transaction is begun and the callback
    is not entered. *)
Theorem Transact_rejects_nesting w d db ctx opts (f : ptr -> M (option error)) :
  dbs w !! d = Some db ->
  is_Some (tx db) ->
  Transact E d ctx opts f w =
    (Ok (Some (errors.New "nested tx not currently supported")), w) /\
  trace (snd (Transact E d ctx opts f w)) = trace w.
Proof.
  intros Hd Ht. by rewrite (Transact_nested E d db ctx opts f w Hd Ht).
Qed.

(** The bounds of [int] within which [+ 1] does not wrap. *)
Lemma GoInt_add_1 z :
  GoInt.min_int <= z < GoInt.max_int -> GoInt.add z 1 = z + 1.
Proof.
  unfold GoInt.min_int, GoInt.max_int, GoInt.add, GoInt.wrap. intros H.
  rewrite Z.mod_small; lia.
Qed.

(** C1. When the callback returns an error, [Transact] calls
    [Rollback] on the transaction.  If the rollback fails, the result
    is the rollback's error wrapped as [tx level N: rollback]: its cause
    and its message come from the rollback failure and do not depend on
    the callback's error.  If the rollback succeeds, the result is the
    callback's error wrapped as [tx level N].  [N] is the depth of the
    child handle. *)
Theorem Transact_rolls_back_on_error w d db ctx opts f t w1 e w3 :
  dbs w !! d = Some db ->
  tx db = None ->
  BeginTxx E (X db) ctx opts w = (Ok (inl t), w1) ->
  f (child_ptr w1) (callback_world w1 (child_of db t)) = (Ok (Some e), w3) ->
  let lvl := txLevel (child_of db t) in
  exists res w4,
    Transact E d ctx opts f w = (Ok (Some res), w4) /\
    trace w4 = trace w3 ++ [EvRollback t] /\
    has_tx_level lvl res = true /\
    match fst (drv_Rollback E t (drv w3)) with
    | Some re =>
        res = withMessage re (tx_level_msg lvl ": rollback") /\
        errors.Cause res = errors.Cause re /\
        errors.Error res =
          tx_level_msg lvl ": rollback" +:+ ": " +:+ errors.Error re
    | None =>
        res = withMessage e (tx_level_msg lvl "") /\
        errors.Cause res = errors.Cause e /\
        errors.Error res = tx_level_msg lvl "" +:+ ": " +:+ errors.Error e
    end.
Proof.
  intros Hd Ht Hb Hf lvl.
  rewrite (Transact_begun E d db ctx opts f w t w1 Hd Ht Hb).
  unfold bind at 1. rewrite Hf. unfold conclude, bind, Rollback.
  destruct (drv_Rollback E t (drv w3)) as [[re|] ds]; cbn [fst].
  - do 2 eexists. split; [reflexivity|]. split; [done|].
    split; [apply wrapped_has_tx_level|]. done.
  - do 2 eexists. split; [reflexivity|]. split; [done|].
    split; [apply wrapped_has_tx_level|]. done.
Qed.

Lemma BeginTxx_begun dbx ctx opts w t w1 :
  BeginTxx E dbx ctx opts w = (Ok (inl t), w1) ->
  t = next_tx w /\ next_tx w1 = S t /\
  dbs w1 = dbs w /\ mtxs w1 = mtxs w /\ maps w1 = maps w /\
  trace w1 = trace w ++ [EvBeginTxx dbx ctx opts].
Proof.
  unfold BeginTxx. destruct (drv_BeginTxx E dbx ctx opts (drv w)) as [[err|] ds];
    intros H; inversion H; subst; done.
Qed.

(** C4. When [Transact] has begun a transaction [t], it runs the
    callback on a freshly allocated handle whose fields are: the
    connection of the parent, the new transaction [t], the depth of the
    parent plus one, and the mutex and the map of the parent.  Maps and
    mutexes are as they were when [Transact] was called, so a query that
    is in the cache then resolves on the child to the same statement
    without a driver call, and [Exec] on the child runs that statement
    bound to [t].  This is the case of a query that [Stmt] resolved on the
    parent before, whatever the caller did in between. *)
Theorem Transact_child_handle w d db ctx opts t w1 :
  dbs w !! d = Some db ->
  tx db = None ->
  BeginTxx E (X db) ctx opts w = (Ok (inl t), w1) ->
  let c := child_ptr w1 in
  exists child w2,
    (forall f, Transact E d ctx opts f w =
               bind (f c) (conclude E t (txLevel child)) w2) /\
    dbs w !! c = None /\
    dbs w2 = <[c := child]> (dbs w) /\
    t = next_tx w /\
    X child = X db /\
    tx child = Some t /\
    txLevel child = GoInt.add (txLevel db) 1 /\
    (GoInt.min_int <= txLevel db < GoInt.max_int ->
     txLevel child = txLevel db + 1) /\
    stmtsMtx child = stmtsMtx db /\
    stmts child = stmts db /\
    maps w2 = maps w /\
    mtxs w2 = mtxs w /\
    (forall query s,
        mtxs w !! stmtsMtx db = Some false ->
        map_contents (stmts db) w !! query = Some s ->
        Stmt E c query w2 = (Ok (inl s), w2) /\
        forall ctx' params,
          Exec E c ctx' query params w2 =
            ExecContext E (Tx_NamedStmt t s) ctx' (default_params params) w2) /\
    (forall w0 w0' p query s,
        sound w0 ->
        dbs w0 !! d = Some db ->
        Stmt E d query w0 = (Ok (inl s), w0') ->
        w = snd (run E p w0') ->
        Stmt E c query w2 = (Ok (inl s), w2)).
Proof.
  intros Hd Ht Hb c.
  destruct (BeginTxx_begun _ _ _ _ _ _ Hb) as (Hnt & _ & Hdbs & Hmt & Hmp & _).
  exists (child_of db t), (callback_world w1 (child_of db t)).
  assert (dbs w !! c = None) as Hfresh.
  { rewrite <- Hdbs. apply not_elem_of_dom, is_fresh. }
  assert (forall query s,
             mtxs w !! stmtsMtx db = Some false ->
             map_contents (stmts db) w !! query = Some s ->
             Stmt E c query (callback_world w1 (child_of db t)) =
               (Ok (inl s), callback_world w1 (child_of db t))) as Hhit.
  { intros query s Hm Hq. apply (Stmt_hit E _ c (child_of db t)).
    - cbn. apply lookup_insert_eq.
    - cbn. by rewrite Hmt.
    - unfold map_contents in *. cbn. by rewrite Hmp. }
  split; [intros f; by apply Transact_begun|].
  split; [done|].
  split; [cbn; by rewrite Hdbs|].
  split; [done|]. split; [done|]. split; [done|]. split; [done|].
  split; [apply GoInt_add_1|].
  split; [done|]. split; [done|]. split; [done|]. split; [done|].
  split.
  - intros query s Hm Hq. split; [by apply Hhit|]. intros ctx' params.
    rewrite (Exec_resolved _ c (child_of db t) ctx' query params s _
               (lookup_insert_eq _ _ _) (Hhit query s Hm Hq)).
    done.
  - intros w0 w0' p query s Hs0 Hd0 HS ->.
    assert (ready w0 d db) as Hr0 by (by apply (proj1 Hs0)).
    destruct (Stmt_caches E w0 d db query s w0' Hr0 HS) as [(Hd0' & _) Hq0'].
    assert (sound w0') as Hs0'.
    { pose proof (proj2 (Stmt_keeps E d query w0) Hs0) as [H _]. by rewrite HS in H. }
    destruct (cache_entries_persist E p w0' d db query s Hs0' Hd0' Hq0')
      as (Hsp & _ & Hqp & _).
    destruct (proj1 Hsp d db Hd) as (_ & Hm & _).
    by apply Hhit.
Qed.

(** C7, as the code has it.  On a handle without a transaction: a
    failure of [BeginTxx] is returned as the driver produced it, with no
    annotation, and the callback is not entered; when the callback
    succeeds [Transact] calls [Commit], returns a commit failure wrapped
    as [tx level N: commit] and returns [nil] otherwise; when the
    callback fails and the rollback fails, the rollback failure is
    returned wrapped as [tx level N: rollback]. *)
Theorem Transact_lifecycle_errors w d db ctx opts f :
  dbs w !! d = Some db ->
  tx db = None ->
  (forall err w1,
      BeginTxx E (X db) ctx opts w = (Ok (inr err), w1) ->
      Transact E d ctx opts f w = (Ok (Some err), w1) /\
      trace w1 = trace w ++ [EvBeginTxx (X db) ctx opts]) /\
  (forall t w1 w3,
      BeginTxx E (X db) ctx opts w = (Ok (inl t), w1) ->
      let lvl := txLevel (child_of db t) in
      let entry := f (child_ptr w1) (callback_world w1 (child_of db t)) in
      (entry = (Ok None, w3) ->
       exists w4,
         trace w4 = trace w3 ++ [EvCommit t] /\
         match fst (drv_Commit E t (drv w3)) with
         | Some ce =>
             Transact E d ctx opts f w =
               (Ok (Some (withMessage ce (tx_level_msg lvl ": commit"))), w4) /\
             has_tx_level lvl (withMessage ce (tx_level_msg lvl ": commit")) = true
         | None => Transact E d ctx opts f w = (Ok None, w4)
         end) /\
      (forall e re,
          entry = (Ok (Some e), w3) ->
          fst (drv_Rollback E t (drv w3)) = Some re ->
          exists w4,
            trace w4 = trace w3 ++ [EvRollback t] /\
            Transact E d ctx opts f w =
              (Ok (Some (withMessage re (tx_level_msg lvl ": rollback"))), w4) /\
            has_tx_level lvl (withMessage re (tx_level_msg lvl ": rollback")) = true)).
Proof.
  intros Hd Ht. split.
  - intros err w1 Hb. split; [by apply (Transact_begin_fails E d db)|].
    revert Hb. unfold BeginTxx.
    destruct (drv_BeginTxx E (X db) ctx opts (drv w)) as [[err'|] ds];
      intros H; inversion H; subst; done.
  - intros t w1 w3 Hb lvl entry. subst entry. split.
    + intros Hf.
      assert (Transact E d ctx opts f w = conclude E t lvl None w3) as ->.
      { rewrite (Transact_begun E d db ctx opts f w t w1 Hd Ht Hb).
        unfold bind at 1. by rewrite Hf. }
      unfold conclude, bind, Commit.
      destruct (drv_Commit E t (drv w3)) as [[ce|] ds]; cbn [fst].
      * eexists. split; [|split; [reflexivity|apply wrapped_has_tx_level]]. done.
      * eexists. split; [|reflexivity]. done.
    + intros e re Hf Hre.
      assert (Transact E d ctx opts f w = conclude E t lvl (Some e) w3) as ->.
      { rewrite (Transact_begun E d db ctx opts f w t w1 Hd Ht Hb).
        unfold bind at 1. by rewrite Hf. }
      unfold conclude, bind, Rollback.
      destruct (drv_Rollback E t (drv w3)) as [rb ds]. cbn in Hre. subst rb.
      eexists. split; [|split; [reflexivity|apply wrapped_has_tx_level]]. done.
Qed.

(** C9. [Transact] leaves every handle that exists when it is called
    as it is, the caller's among them, whether it returns an error,
    returns [nil] or aborts; and when it begins a transaction [t], the
    handle that holds [t] is the child, at an address that was free. *)
Theorem Transact_keeps_caller_handle w d ctx opts (f : ptr -> Prog) :
  let w' := snd (Transact E d ctx opts (fun c => run E (f c)) w) in
  dbs w' !! d = dbs w !! d /\
  (forall l db, dbs w !! l = Some db -> dbs w' !! l = Some db) /\
  (forall db t w1,
      dbs w !! d = Some db -> tx db = None ->
      BeginTxx E (X db) ctx opts w = (Ok (inl t), w1) ->
      dbs w !! child_ptr w1 = None /\
      dbs w' !! child_ptr w1 = Some (child_of db t)).
Proof.
  intros w'.
  assert (dbs w ⊆ dbs w') as Hsub.
  { apply (Transact_grows E d ctx opts (fun c => run E (f c))).
    intros c. apply run_grows. }
  split; [|split].
  - destruct (dbs w !! d) as [db|] eqn:Hd.
    + by apply (lookup_weaken _ _ _ _ Hd).
    + subst w'. by rewrite Transact_nil.
  - intros l db Hl. by apply (lookup_weaken _ _ _ _ Hl).
  - intros db t w1 Hd Ht Hb.
    destruct (BeginTxx_begun _ _ _ _ _ _ Hb) as (_ & _ & Hdbs & _).
    split.
    { rewrite <- Hdbs. apply not_elem_of_dom, is_fresh. }
    subst w'. rewrite (Transact_begun E d db ctx opts _ w t w1 Hd Ht Hb).
    assert (respects grows
              (bind (run E (f (child_ptr w1)))
                 (conclude E t (GoInt.add (txLevel db) 1)))) as Hg.
    { apply (respects_bind grows); [apply run_grows|].
      intros e. apply same_grows, conclude_same. }
    destruct (Hg (callback_world w1 (child_of db t))) as [Hsub' _].
    eapply lookup_weaken; [|exact Hsub']. cbn. apply lookup_insert_eq.
Qed.

Lemma handle_ok_depth db :
  handle_ok db -> (is_Some (tx db) <-> 1 <= txLevel db) /\ 0 <= txLevel db <= 1.
Proof.
  intros [[Ht Hl]|[Ht Hl]]; rewrite Hl; split; try lia.
  - rewrite Ht. split; [by intros [? ?]|lia].
  - split; [lia|done].
Qed.

(** C10. A handle made by [New] has no transaction and depth 0.  On a
    handle that holds a transaction [Transact] builds no child: it leaves
    the world as it is.  In a world where every handle satisfies the
    invariant, the child on which [Transact] runs its callback has a
    transaction and depth one more than its parent, which is 1, and the
    world the callback starts in satisfies the invariant again.  Every
    run of a caller keeps the invariant, so from the initial world every
    handle ever allocated has a transaction exactly when its depth is at
    least 1, and its depth is 0 or 1. *)
Theorem reachable_handles_invariant :
  (forall dbx w,
      exists d w',
        New dbx w = (Ok d, w') /\ dbs w !! d = None /\
        exists db, dbs w' !! d = Some db /\ X db = dbx /\
                   tx db = None /\ txLevel db = 0) /\
  (forall w d db ctx opts f,
      dbs w !! d = Some db -> is_Some (tx db) ->
      snd (Transact E d ctx opts f w) = w) /\
  (forall w d db ctx opts t w1,
      handles_ok w -> dbs w !! d = Some db -> tx db = None ->
      BeginTxx E (X db) ctx opts w = (Ok (inl t), w1) ->
      exists child w2,
        (forall f, Transact E d ctx opts f w =
                   bind (f (child_ptr w1)) (conclude E t (txLevel child)) w2) /\
        dbs w2 !! child_ptr w1 = Some child /\
        tx child = Some t /\
        txLevel child = txLevel db + 1 /\
        txLevel child = 1 /\
        handles_ok w2) /\
  (forall p w, handles_ok w -> handles_ok (snd (run E p w))) /\
  (forall p ds d db,
      dbs (snd (run E p (init ds))) !! d = Some db ->
      (is_Some (tx db) <-> 1 <= txLevel db) /\ 0 <= txLevel db <= 1).
Proof.
  split; [|split; [|split; [|split]]].
  - intros dbx w. unfold New, bind, alloc_Mutex, make_map, alloc_Database. cbn.
    do 2 eexists. split; [reflexivity|].
    split; [apply not_elem_of_dom, is_fresh|].
    eexists. split; [apply lookup_insert_eq|done].
  - intros w d db ctx opts f Hd Ht.
    by rewrite (Transact_nested E d db ctx opts f w Hd Ht).
  - intros w d db ctx opts t w1 Hw Hd Ht Hb.
    destruct (BeginTxx_begun _ _ _ _ _ _ Hb) as (_ & _ & Hdbs & _).
    assert (dbs w1 !! d = Some db) as Hd1 by (by rewrite Hdbs).
    assert (handles_ok w1) as Hw1 by (unfold handles_ok; by rewrite Hdbs).
    exists (child_of db t), (callback_world w1 (child_of db t)).
    split; [intros f; by apply Transact_begun|].
    split; [cbn; apply lookup_insert_eq|].
    split; [done|].
    assert (txLevel db = 0) as Hz
      by (destruct (Hw d db Hd) as [[_ ?]|[[? ?] _]]; [done|congruence]).
    cbn. rewrite Hz. do 2 (split; [done|]).
    exact (proj2 (callback_world_grows w1 db t d Hd1 Ht) Hw1).
  - intros p w Hw. by apply (run_grows E p w).
  - intros p ds d db Hd. apply handle_ok_depth.
    assert (handles_ok (init ds)) as Hi by (intros ? ?; cbn; by rewrite lookup_empty).
    exact (proj2 (run_grows E p (init ds)) Hi d db Hd).
Qed.
End Claims.

Section CloseCall.
Context {DS : Type} (E : Env DS).
Implicit Types (w : World DS) (d : ptr) (db : Database).

(** In a list of cache entries without a repeated statement, every
    statement is released once. *)
Lemma released_once (c : gmap string NamedStmt) (l : list (string * NamedStmt)) :
  l ≡ₚ map_to_list c ->
  (forall q1 q2 s, c !! q1 = Some s -> c !! q2 = Some s -> q1 = q2) ->
  forall q s,
    c !! q = Some s ->
    count_occ Event_eq_dec (map (fun e => EvStmtClose e.2) l) (EvStmtClose s) = 1%nat.
Proof.
  intros Hp Hinj q s Hq.
  assert (NoDup (map (fun e : string * NamedStmt => EvStmtClose e.2) l)) as Hnd.
  { change (NoDup ((fun e : string * NamedStmt => EvStmtClose e.2) <$> l)).
    apply NoDup_fmap_2_strong.
    - intros [q1 s1] [q2 s2] H1 H2 Heq. cbn in Heq. inversion Heq; subst.
      rewrite Hp in H1, H2.
      apply elem_of_map_to_list in H1, H2. by rewrite (Hinj q1 q2 s2 H1 H2).
    - rewrite Hp. apply NoDup_map_to_list. }
  apply NoDup_ListNoDup in Hnd.
  apply (proj1 (NoDup_count_occ' Event_eq_dec _) Hnd).
  apply in_map_iff. exists (q, s). split; [done|].
  apply list_elem_of_In. rewrite Hp. by apply elem_of_map_to_list.
Qed.

(** C8, as the code has it.  [Close] releases the entries of the cache
    in [range] order and stops at the first release that fails: it
    returns that failure, and the entries after it are not attempted.
    When no release fails it returns [nil] and has released every entry,
    so every cached statement once.  It makes no other driver call, and
    handles (with their connection [X]), mutexes and maps are as before. *)
Theorem Close_releases_until_first_failure w d db :
  ready w d db ->
  let cache := map_contents (stmts db) w in
  let w' := snd (Close E d w) in
  exists attempted rest,
    range_order E (drv w) cache = attempted ++ rest /\
    attempted ++ rest ≡ₚ map_to_list cache /\
    trace w' = trace w ++ map (fun e => EvStmtClose e.2) attempted /\
    dbs w' = dbs w /\ mtxs w' = mtxs w /\ maps w' = maps w /\
    match fst (Close E d w) with
    | Ok None =>
        rest = [] /\
        is_Some (closes_ok E attempted (drv w)) /\
        ((forall q1 q2 s, cache !! q1 = Some s -> cache !! q2 = Some s -> q1 = q2) ->
         forall q s,
           cache !! q = Some s ->
           count_occ Event_eq_dec
             (map (fun e => EvStmtClose e.2) attempted) (EvStmtClose s) = 1%nat)
    | Ok (Some err) =>
        exists pre k s ds1,
          attempted = pre ++ [(k, s)] /\
          closes_ok E pre (drv w) = Some ds1 /\
          fst (drv_StmtClose E s ds1) = Some err
    | Abort _ => False
    end.
Proof.
  intros Hr cache w'. subst w'. rewrite (Close_eq E w d db Hr). fold cache.
  destruct (close_range_spec E (range_order E (drv w) cache) w)
    as (att & rest & Hl & Htr & Hdb & Hmx & Hmp & Hres).
  exists att, rest. split; [done|].
  split; [rewrite <- Hl; apply range_order_perm|].
  do 4 (split; [done|]).
  destruct (fst (close_range E _ w)) as [[err|]|]; [done| |done].
  destruct Hres as [-> Hok]. do 2 (split; [done|]).
  intros Hinj q s Hq. apply (released_once cache att) with (q := q); [|done|done].
  rewrite app_nil_r in Hl. rewrite <- Hl. apply range_order_perm.
Qed.
End CloseCall.

(** ** Further properties of the operations *)

Section Operations.
Context {DS : Type} (E : Env DS).
Implicit Types (w : World DS) (d : ptr) (db : Database) (query : string).

(** X2. A query that the driver cannot prepare is never executed: on a
    ready handle that has not cached it, [Exec], [Get] and [Select] return
    the driver's prepare error as it is, the one driver call is
    [PrepareNamed], and the cache is unchanged. *)
Theorem unprepared_query_is_not_executed w d db c ctx query dest params err :
  dbs w !! d = Some db ->
  mtxs w !! stmtsMtx db = Some false ->
  maps w !! stmts db = Some c ->
  c !! query = None ->
  fst (drv_PrepareNamed E (X db) query (drv w)) = Some err ->
  let w1 := prepared E w (X db) query in
  Exec E d ctx query params w = (Ok (inr err), w1) /\
  Get E d ctx query dest params w = (Ok (Some err), w1) /\
  Select E d ctx query dest params w = (Ok (Some err), w1) /\
  trace w1 = trace w ++ [EvPrepareNamed (X db) query] /\
  maps w1 = maps w /\ mtxs w1 = mtxs w.
Proof.
  intros Hd Hm Hc Hq Herr w1.
  assert (Stmt E d query w = (Ok (inr err), w1)) as HS.
  { rewrite (Stmt_eq E w d db c query Hd Hm Hc), Hq. by rewrite Herr. }
  unfold Exec, Get, Select, bind. rewrite HS. done.
Qed.

Lemma Stmt_of_fields w d db query :
  dbs w !! d = Some db ->
  Stmt E d query w =
    bind (Lock (stmtsMtx db)) (fun _ =>
      defer (Unlock (stmtsMtx db))
        (bind (map_get (stmts db) query) (fun found =>
           match found with
           | Some s => ret (inl s)
           | None =>
               bind (PrepareNamed E (X db) query) (fun r =>
                 match r with
                 | inr err => ret (inr err)
                 | inl stmt =>
                     bind (map_set (stmts db) query stmt) (fun _ => ret (inl stmt))
                 end)
           end))) w.
Proof. intros H. unfold Stmt. unfold bind at 1, deref. by rewrite H. Qed.

Lemma Close_of_fields w d db :
  dbs w !! d = Some db ->
  Close E d w =
    bind (Lock (stmtsMtx db)) (fun _ =>
      defer (Unlock (stmtsMtx db))
        (bind (map_range E (stmts db)) (close_range E))) w.
Proof. intros H. unfold Close. unfold bind at 1, deref. by rewrite H. Qed.

(** X3. [Stmt] and [Close] look at the connection, the mutex and the map
    of a handle and at nothing else: two handles that share them, such as
    a transaction-scoped handle and its parent, resolve every query alike
    and close alike, in every world and with every outcome. *)
Theorem handles_sharing_a_cache_agree w d1 db1 d2 db2 :
  dbs w !! d1 = Some db1 ->
  dbs w !! d2 = Some db2 ->
  X db1 = X db2 ->
  stmtsMtx db1 = stmtsMtx db2 ->
  stmts db1 = stmts db2 ->
  (forall query, Stmt E d1 query w = Stmt E d2 query w) /\
  Close E d1 w = Close E d2 w.
Proof.
  intros H1 H2 HX Hm Hs. split.
  - intros query.
    rewrite (Stmt_of_fields w d1 db1 query H1), (Stmt_of_fields w d2 db2 query H2).
    by rewrite HX, Hm, Hs.
  - rewrite (Close_of_fields w d1 db1 H1), (Close_of_fields w d2 db2 H2).
    by rewrite Hm, Hs.
Qed.

(** *** The driver calls a caller causes *)

Global Instance emits_from_preorder n (P : Event -> Prop) :
  PreOrder (emits_from (DS:=DS) n P).
Proof.
  split.
  - intros w Hn. split; [done|]. exists []. by rewrite app_nil_r.
  - intros a b c Hab Hbc Hn. destruct (Hab Hn) as (Hle1 & evs1 & Ht1 & HP1).
    destruct (Hbc ltac:(lia)) as (Hle2 & evs2 & Ht2 & HP2).
    split; [lia|]. exists (evs1 ++ evs2).
    split; [rewrite Ht2, Ht1; by rewrite app_assoc|]. by apply Forall_app.
Qed.

(** A step that logs nothing and begins nothing. *)
Lemma silent_emits n P w w' :
  trace w' = trace w -> next_tx w' = next_tx w -> emits_from n P w w'.
Proof.
  intros Ht Hn _. split; [lia|]. exists []. split; [by rewrite app_nil_r|done].
Qed.

(** A step that logs one event. *)
Lemma logged_emits n (P : Event -> Prop) w w' ev :
  P ev -> trace w' = trace w ++ [ev] -> (next_tx w <= next_tx w')%nat ->
  emits_from n P w w'.
Proof.
  intros HP Ht Hn _. split; [done|]. exists [ev]. split; [done|].
  by apply Forall_singleton.
Qed.

Section Emits.
Context (n : nat) (P : Event -> Prop).

Ltac silent :=
  intros w;
  repeat (cbn; match goal with
               | |- context [match ?x with _ => _ end] => destruct x eqn:?
               end);
  by apply silent_emits.

Lemma deref_emits d : respects (emits_from n P) (deref (DS:=DS) d).
Proof. unfold deref. silent. Qed.
Lemma Lock_emits m : respects (emits_from n P) (Lock (DS:=DS) m).
Proof. unfold Lock. silent. Qed.
Lemma Unlock_emits m : respects (emits_from n P) (Unlock (DS:=DS) m).
Proof. unfold Unlock. silent. Qed.
Lemma map_get_emits m k : respects (emits_from n P) (map_get (DS:=DS) m k).
Proof. unfold map_get. silent. Qed.
Lemma map_set_emits m k s : respects (emits_from n P) (map_set (DS:=DS) m k s).
Proof. unfold map_set. silent. Qed.
Lemma map_range_emits m : respects (emits_from n P) (map_range E m).
Proof. unfold map_range. silent. Qed.
Lemma alloc_Database_emits db : respects (emits_from n P) (alloc_Database (DS:=DS) db).
Proof. unfold alloc_Database. silent. Qed.
Lemma alloc_Mutex_emits : respects (emits_from n P) (alloc_Mutex (DS:=DS)).
Proof. unfold alloc_Mutex. silent. Qed.
Lemma make_map_emits : respects (emits_from n P) (make_map (DS:=DS)).
Proof. unfold make_map. silent. Qed.

Lemma PrepareNamed_emits dbx q :
  P (EvPrepareNamed dbx q) -> respects (emits_from n P) (PrepareNamed E dbx q).
Proof.
  intros HP w. unfold PrepareNamed.
  destruct (drv_PrepareNamed E dbx q (drv w)) as [[err|] ds];
    by apply (logged_emits n P _ _ (EvPrepareNamed dbx q)).
Qed.

Lemma BeginTxx_emits dbx ctx opts :
  P (EvBeginTxx dbx ctx opts) -> respects (emits_from n P) (BeginTxx E dbx ctx opts).
Proof.
  intros HP w. unfold BeginTxx.
  destruct (drv_BeginTxx E dbx ctx opts (drv w)) as [[err|] ds];
    apply (logged_emits n P _ _ (EvBeginTxx dbx ctx opts)); cbn; try done; lia.
Qed.

Lemma Commit_emits t : P (EvCommit t) -> respects (emits_from n P) (Commit E t).
Proof.
  intros HP w. unfold Commit. destruct (drv_Commit E t (drv w)).
  by apply (logged_emits n P _ _ (EvCommit t)).
Qed.

Lemma Rollback_emits t : P (EvRollback t) -> respects (emits_from n P) (Rollback E t).
Proof.
  intros HP w. unfold Rollback. destruct (drv_Rollback E t (drv w)).
  by apply (logged_emits n P _ _ (EvRollback t)).
Qed.

Lemma StmtClose_emits s :
  P (EvStmtClose s) -> respects (emits_from n P) (StmtClose E s).
Proof.
  intros HP w. unfold StmtClose. destruct (drv_StmtClose E s (drv w)).
  by apply (logged_emits n P _ _ (EvStmtClose s)).
Qed.

Lemma ExecContext_emits s ctx p :
  P (EvExecContext s ctx p) -> respects (emits_from n P) (ExecContext E s ctx p).
Proof.
  intros HP w. unfold ExecContext. destruct (drv_ExecContext E s ctx p (drv w)).
  by apply (logged_emits n P _ _ (EvExecContext s ctx p)).
Qed.

Lemma GetContext_emits s ctx dest p :
  P (EvGetContext s ctx dest p) ->
  respects (emits_from n P) (GetContext E s ctx dest p).
Proof.
  intros HP w. unfold GetContext. destruct (drv_GetContext E s ctx dest p (drv w)).
  by apply (logged_emits n P _ _ (EvGetContext s ctx dest p)).
Qed.

Lemma SelectContext_emits s ctx dest p :
  P (EvSelectContext s ctx dest p) ->
  respects (emits_from n P) (SelectContext E s ctx dest p).
Proof.
  intros HP w. unfold SelectContext.
  destruct (drv_SelectContext E s ctx dest p (drv w)).
  by apply (logged_emits n P _ _ (EvSelectContext s ctx dest p)).
Qed.
End Emits.
End Operations.

Section Traces.
Context {DS : Type} (E : Env DS).
Implicit Types (w : World DS) (d : ptr) (db : Database) (query : string).

Lemma default_params_not_nil params : default_params params <> params_nil.
Proof. by destruct params. Qed.

Section Calls.
Context (n : nat).

Hint Resolve deref_emits Lock_emits Unlock_emits map_get_emits map_set_emits
  map_range_emits alloc_Database_emits alloc_Mutex_emits make_map_emits
  PrepareNamed_emits BeginTxx_emits StmtClose_emits ExecContext_emits
  GetContext_emits SelectContext_emits default_params_not_nil : frame.
Hint Extern 1 (api_event _ _) => exact I : frame.
Hint Extern 1 (api_event _ _) => apply default_params_not_nil : frame.

Lemma Stmt_emits d query : respects (emits_from n (api_event n)) (Stmt E d query).
Proof. unfold Stmt. frame. Qed.

Lemma Exec_emits d ctx query params :
  respects (emits_from n (api_event n)) (Exec E d ctx query params).
Proof. pose proof Stmt_emits. unfold Exec. frame. Qed.

Lemma Get_emits d ctx query dest params :
  respects (emits_from n (api_event n)) (Get E d ctx query dest params).
Proof. pose proof Stmt_emits. unfold Get. frame. Qed.

Lemma Select_emits d ctx query dest params :
  respects (emits_from n (api_event n)) (Select E d ctx query dest params).
Proof. pose proof Stmt_emits. unfold Select. frame. Qed.

Lemma close_range_emits l : respects (emits_from n (api_event n)) (close_range E l).
Proof. induction l as [|[k s] l IH]; cbn; frame. Qed.

Lemma Close_emits d : respects (emits_from n (api_event n)) (Close E d).
Proof. pose proof close_range_emits. unfold Close. frame. Qed.

Lemma New_emits dbx : respects (emits_from n (api_event n)) (New (DS:=DS) dbx).
Proof. unfold New. frame. Qed.

Lemma conclude_emits t lvl e :
  (n <= t)%nat -> respects (emits_from n (api_event n)) (conclude E t lvl e).
Proof.
  intros Ht. unfold conclude. destruct e.
  - apply (respects_bind _); [by apply Rollback_emits|]. intros [?|]; frame.
  - apply (respects_bind _); [by apply Commit_emits|]. intros ?; frame.
Qed.

Lemma callback_world_emits w1 child :
  emits_from n (api_event n) w1 (callback_world w1 child).
Proof. by apply (logged_emits n _ _ _ (EvUnitOfWork (child_ptr w1))). Qed.

Lemma Transact_emits d ctx opts f :
  (forall c, respects (emits_from n (api_event n)) (f c)) ->
  respects (emits_from n (api_event n)) (Transact E d ctx opts f).
Proof.
  intros Hf w.
  destruct (dbs w !! d) as [db|] eqn:Hd;
    [|rewrite Transact_nil by done; reflexivity].
  destruct (tx db) as [t0|] eqn:Ht;
    [rewrite (Transact_nested E d db) by (by rewrite ?Ht); reflexivity|].
  pose proof (BeginTxx_emits E n (api_event n) (X db) ctx opts I w) as Hg.
  destruct (BeginTxx_Ok E (X db) ctx opts w) as ([t|err] & w1 & Hb);
    rewrite Hb in Hg; cbn in Hg.
  - rewrite (Transact_begun E d db ctx opts f w t w1 Hd Ht Hb).
    destruct (BeginTxx_begun E _ _ _ _ _ _ Hb) as (-> & _).
    intros Hn.
    assert (emits_from n (api_event n) w
              (snd (bind (f (child_ptr w1))
                      (conclude E (next_tx w) (GoInt.add (txLevel db) 1))
                      (callback_world w1 (child_of db (next_tx w)))))) as H;
      [|by apply H].
    transitivity w1; [exact Hg|].
    transitivity (callback_world w1 (child_of db (next_tx w)));
      [apply callback_world_emits|].
    apply (respects_bind _); [apply Hf|].
    intros e. by apply conclude_emits.
  - by rewrite (Transact_begin_fails E d db ctx opts f w err w1 Hd Ht Hb).
Qed.

Lemma run_emits p : respects (emits_from n (api_event n)) (run E p).
Proof.
  induction p; cbn [run].
  - apply (respects_ret _).
  - apply (respects_bind _); [apply New_emits | auto].
  - apply (respects_bind _); [apply Stmt_emits | auto].
  - apply (respects_bind _); [apply Exec_emits | auto].
  - apply (respects_bind _); [apply Get_emits | auto].
  - apply (respects_bind _); [apply Select_emits | auto].
  - apply (respects_bind _); [apply Transact_emits; auto | auto].
  - apply (respects_bind _); [apply Close_emits | auto].
Qed.
End Calls.

Lemma api_event_not_earlier t evs :
  Forall (api_event (S t)) evs -> commits t evs = 0%nat /\ rollbacks t evs = 0%nat.
Proof.
  intros H. unfold commits, rollbacks.
  split; apply count_occ_not_In; intros Hin;
    apply (proj1 (List.Forall_forall _ _) H) in Hin; cbn in Hin; lia.
Qed.

(** X1. A [nil] params argument is replaced by the empty struct before
    the statement runs: [Exec], [Get] and [Select] with [nil] behave as
    with [struct{}{}], and whatever a caller does, no execution call that
    reaches the driver carries [nil] params. *)
Theorem driver_never_sees_nil_params :
  (forall w d ctx query dest,
      Exec E d ctx query params_nil w =
        Exec E d ctx query params_empty_struct w /\
      Get E d ctx query dest params_nil w =
        Get E d ctx query dest params_empty_struct w /\
      Select E d ctx query dest params_nil w =
        Select E d ctx query dest params_empty_struct w) /\
  (forall p w,
      exists evs,
        trace (snd (run E p w)) = trace w ++ evs /\
        forall s ctx dest,
          ~ In (EvExecContext s ctx params_nil) evs /\
          ~ In (EvGetContext s ctx dest params_nil) evs /\
          ~ In (EvSelectContext s ctx dest params_nil) evs).
Proof.
  split; [done|]. intros p w.
  destruct (run_emits 0 p w ltac:(lia)) as (_ & evs & Htr & HP).
  exists evs. split; [done|]. intros s ctx dest.
  repeat split; intros Hin;
    apply (proj1 (List.Forall_forall _ _) HP) in Hin; by cbn in Hin.
Qed.

(** X11. A transaction that [Transact] begins is concluded once, by
    [Transact] itself.  The driver calls of the whole call are:
    [BeginTxx], the calls of the unit of work, then one [Commit] when the
    unit of work returned [nil], one [Rollback] when it returned an error,
    and nothing when it panicked.  Nothing the unit of work does through
    the package, nested calls of [Transact] included, commits or rolls
    back that transaction. *)
Theorem transaction_is_concluded_once w d db ctx opts (f : ptr -> Prog) t w1 :
  dbs w !! d = Some db ->
  tx db = None ->
  BeginTxx E (X db) ctx opts w = (Ok (inl t), w1) ->
  let work := run E (f (child_ptr w1)) (callback_world w1 (child_of db t)) in
  exists evs_work,
    trace (snd work) =
      trace w ++ [EvBeginTxx (X db) ctx opts; EvUnitOfWork (child_ptr w1)] ++ evs_work /\
    commits t evs_work = 0%nat /\
    rollbacks t evs_work = 0%nat /\
    trace (snd (Transact E d ctx opts (fun c => run E (f c)) w)) =
      trace (snd work) ++
      match fst work with
      | Ok None => [EvCommit t]
      | Ok (Some _) => [EvRollback t]
      | Abort _ => []
      end.
Proof.
  intros Hd Ht Hb work.
  rewrite (Transact_begun E d db ctx opts _ w t w1 Hd Ht Hb).
  destruct (BeginTxx_begun E _ _ _ _ _ _ Hb) as (-> & Hnext & _ & _ & _ & Htr1).
  set (w2 := callback_world w1 (child_of db (next_tx w))) in *.
  assert (next_tx w2 = S (next_tx w)) as Hn2 by done.
  destruct (run_emits (S (next_tx w)) (f (child_ptr w1)) w2 ltac:(lia))
    as (_ & evs & Htr & HP).
  fold work in Htr.
  destruct (api_event_not_earlier _ _ HP) as [Hc0 Hr0].
  exists evs. split.
  { rewrite Htr. subst w2. cbn. rewrite Htr1. by rewrite <- !app_assoc. }
  do 2 (split; [done|]).
  unfold bind. fold work. destruct work as [[[e|]|flt] w3]; cbn.
  - unfold bind, Rollback. destruct (drv_Rollback E (next_tx w) (drv w3)) as [[?|] ?]; done.
  - unfold bind, Commit. destruct (drv_Commit E (next_tx w) (drv w3)) as [[?|] ?]; done.
  - by rewrite app_nil_r.
Qed.
End Traces.

Section Handles.
Context {DS : Type} (E : Env DS).
Implicit Types (w : World DS) (d : ptr) (db : Database) (query : string).

(** X4. [New] makes no driver call and builds a handle with a mutex and
    an empty map of its own, leaving every other handle and its cache as
    they are.  Nothing is shared between two handles made by [New], also
    on the same connection: the first [Stmt] of any query on the new
    handle asks the driver to prepare it, whatever other handles have
    cached. *)
Theorem New_gives_a_private_cache dbx w :
  exists d db w',
    New dbx w = (Ok d, w') /\
    dbs w !! d = None /\
    dbs w' = <[d := db]> (dbs w) /\
    X db = dbx /\
    ready w' d db /\
    map_contents (stmts db) w' = ∅ /\
    trace w' = trace w /\ drv w' = drv w /\
    (forall d0 db0,
        ready w d0 db0 ->
        ready w' d0 db0 /\
        stmts db0 <> stmts db /\ stmtsMtx db0 <> stmtsMtx db /\
        map_contents (stmts db0) w' = map_contents (stmts db0) w) /\
    (forall query,
        trace (snd (Stmt E d query w')) = trace w' ++ [EvPrepareNamed dbx query]).
Proof.
  assert (mtxs w !! fresh (dom (mtxs w)) = None) as Hfm
    by (apply not_elem_of_dom, is_fresh).
  assert (maps w !! fresh (dom (maps w)) = None) as Hfp
    by (apply not_elem_of_dom, is_fresh).
  assert (dbs w !! fresh (dom (dbs w)) = None) as Hfd
    by (apply not_elem_of_dom, is_fresh).
  unfold New, bind, alloc_Mutex, make_map, alloc_Database. cbn.
  do 3 eexists. split; [reflexivity|]. cbn.
  split; [done|]. split; [done|]. split; [done|].
  assert (ready
            (with_dbs
               (<[fresh (dom (dbs w)) :=
                    {| X := dbx; tx := None; txLevel := 0;
                       stmtsMtx := fresh (dom (mtxs w));
                       stmts := fresh (dom (maps w)) |}]> (dbs w))
               (with_maps (<[fresh (dom (maps w)) := ∅]> (maps w))
                  (with_mtxs (<[fresh (dom (mtxs w)) := false]> (mtxs w)) w)))
            (fresh (dom (dbs w)))
            {| X := dbx; tx := None; txLevel := 0;
               stmtsMtx := fresh (dom (mtxs w));
               stmts := fresh (dom (maps w)) |}) as Hready.
  { unfold ready. cbn. rewrite !lookup_insert_eq. eauto. }
  split; [exact Hready|].
  split; [unfold map_contents; cbn; by rewrite lookup_insert_eq|].
  split; [done|]. split; [done|].
  split.
  - intros d0 db0 (Hd0 & Hm0 & [c0 Hc0]).
    assert (stmts db0 <> fresh (dom (maps w))) as Hne1 by congruence.
    assert (stmtsMtx db0 <> fresh (dom (mtxs w))) as Hne2 by congruence.
    assert (d0 <> fresh (dom (dbs w))) as Hne3 by congruence.
    split; [|split; [done|split; [done|]]].
    + unfold ready. cbn. rewrite !lookup_insert_ne by done. eauto.
    + unfold map_contents. cbn. by rewrite lookup_insert_ne.
  - intros query. destruct Hready as (Hd & Hm & _).
    erewrite Stmt_eq; [|exact Hd|exact Hm|cbn; apply lookup_insert_eq].
    rewrite lookup_empty. cbn.
    by destruct (fst (drv_PrepareNamed E dbx query (drv w))).
Qed.

(** X5. [Close] on a handle whose cache is empty, such as a handle fresh
    from [New], returns [nil] and leaves the world as it is: no driver
    call is made. *)
Theorem Close_of_an_empty_cache w d db :
  ready w d db ->
  map_contents (stmts db) w = ∅ ->
  Close E d w = (Ok None, w).
Proof.
  intros Hr Hempty. rewrite (Close_eq E w d db Hr), Hempty.
  pose proof (range_order_perm E (drv w) (∅ : gmap string NamedStmt)) as Hp.
  rewrite map_to_list_empty in Hp. apply Permutation_nil_r in Hp.
  by rewrite Hp.
Qed.

(** [Close] allocates nothing and writes to no map: a ready handle is
    ready afterwards, with the cache it had. *)
Lemma Close_ready w d db :
  ready w d db ->
  ready (snd (Close E d w)) d db /\
  map_contents (stmts db) (snd (Close E d w)) = map_contents (stmts db) w.
Proof.
  intros Hr.
  assert (dbs (snd (Close E d w)) = dbs w /\
          mtxs (snd (Close E d w)) = mtxs w /\
          maps (snd (Close E d w)) = maps w) as (Hdb & Hmx & Hmp).
  { rewrite (Close_eq E w d db Hr).
    by destruct (close_range_spec E
                   (range_order E (drv w) (map_contents (stmts db) w)) w)
      as (att & rest & _ & _ & ? & ? & ? & _). }
  split; [unfold ready; by rewrite Hdb, Hmx, Hmp|].
  unfold map_contents; by rewrite Hmp.
Qed.

(** X6. [Close] releases the statements and keeps them in the map: after
    [Close], whether it returned [nil] or a failure, the handle is ready,
    its cache has the entries it had, and [Stmt] answers a cached query
    with the released statement, without asking the driver to prepare it
    again. *)
Theorem Close_keeps_the_cache w d db :
  ready w d db ->
  let w' := snd (Close E d w) in
  ready w' d db /\
  map_contents (stmts db) w' = map_contents (stmts db) w /\
  (forall query s,
      map_contents (stmts db) w !! query = Some s ->
      Stmt E d query w' = (Ok (inl s), w')).
Proof.
  intros Hr w'.
  destruct (Close_ready w d db Hr) as (Hr' & Hsame). fold w' in Hr', Hsame.
  split; [done|]. split; [done|].
  intros query s Hq. destruct Hr' as (Hd & Hm & _).
  apply (Stmt_hit E _ d db); [done|done|by rewrite Hsame].
Qed.

(** X7. A second [Close] releases the statements again: when both calls
    return [nil], every cached statement is released twice over the two
    calls. *)
Theorem Close_twice_releases_twice w d db :
  ready w d db ->
  let w1 := snd (Close E d w) in
  let cache := map_contents (stmts db) w in
  fst (Close E d w) = Ok None ->
  fst (Close E d w1) = Ok None ->
  (forall q1 q2 s, cache !! q1 = Some s -> cache !! q2 = Some s -> q1 = q2) ->
  exists evs,
    trace (snd (Close E d w1)) = trace w ++ evs /\
    forall q s, cache !! q = Some s ->
                count_occ Event_eq_dec evs (EvStmtClose s) = 2%nat.
Proof.
  intros Hr w1 cache H1 H2 Hinj.
  destruct (Close_ready w d db Hr) as (Hr1 & Hsame).
  fold w1 in Hr1, Hsame.
  pose proof (Close_eq E w d db Hr) as E1.
  pose proof (Close_eq E w1 d db Hr1) as E2.
  destruct (close_range_spec E (range_order E (drv w) (map_contents (stmts db) w)) w)
    as (a1 & r1 & Hl1 & Ht1 & _ & _ & _ & Hres1).
  destruct (close_range_spec E (range_order E (drv w1) (map_contents (stmts db) w1)) w1)
    as (a2 & r2 & Hl2 & Ht2 & _ & _ & _ & Hres2).
  rewrite <- E1 in Ht1, Hres1. rewrite <- E2 in Ht2, Hres2.
  fold w1 in Ht1. rewrite H1 in Hres1. rewrite H2 in Hres2.
  destruct Hres1 as [-> _]. destruct Hres2 as [-> _].
  rewrite app_nil_r in Hl1, Hl2.
  exists (map (fun e => EvStmtClose e.2) a1 ++ map (fun e => EvStmtClose e.2) a2).
  split; [rewrite Ht2, Ht1; by rewrite app_assoc|].
  intros q s Hq. rewrite count_occ_app.
  assert (a1 ≡ₚ map_to_list cache) as Hp1
    by (rewrite <- Hl1; apply range_order_perm).
  assert (a2 ≡ₚ map_to_list cache) as Hp2
    by (rewrite <- Hl2, Hsame; apply range_order_perm).
  rewrite (released_once cache a1 Hp1 Hinj q s Hq).
  by rewrite (released_once cache a2 Hp2 Hinj q s Hq).
Qed.

Lemma Close_unlocked w d db :
  dbs w !! d = Some db ->
  mtxs w !! stmtsMtx db = Some false ->
  Close E d w =
    close_range E (range_order E (drv w) (map_contents (stmts db) w)) w.
Proof.
  intros Hd Hm.
  unfold Close, bind at 1, deref. rewrite Hd.
  unfold bind at 1, Lock. rewrite Hm.
  unfold defer, bind at 1, map_range.
  change (drv (with_mtxs _ w)) with (drv w).
  change (map_contents (stmts db) (with_mtxs _ w))
    with (map_contents (stmts db) w).
  rewrite close_range_with_mtxs.
  set (l := range_order E (drv w) (map_contents (stmts db) w)).
  pose proof (close_range_mtxs E l w) as Hk.
  destruct (close_range E l w) as [r w'] eqn:Hl. cbn [fst snd] in *.
  unfold Unlock. cbn. rewrite lookup_insert_eq. f_equal.
  destruct w'; unfold with_mtxs; cbn in *. f_equal.
  rewrite insert_insert_eq, Hk. by apply insert_id.
Qed.

(** [Stmt] on a handle whose map is [nil]. *)
Lemma Stmt_nil_map w d db query :
  dbs w !! d = Some db ->
  mtxs w !! stmtsMtx db = Some false ->
  maps w !! stmts db = None ->
  Stmt E d query w =
    match fst (drv_PrepareNamed E (X db) query (drv w)) with
    | Some err => (Ok (inr err), prepared E w (X db) query)
    | None =>
        (Abort NilMapAssignment,
         with_next_stmt (S (next_stmt w)) (prepared E w (X db) query))
    end.
Proof.
  intros Hd Hm Hc.
  unfold Stmt, bind, deref, Lock, defer, map_get, map_contents, Unlock, ret.
  rewrite Hd, Hm. cbn. rewrite Hc. cbn. rewrite lookup_empty.
  unfold PrepareNamed, map_set, prepared. cbn.
  destruct (drv_PrepareNamed E (X db) query (drv w)) as [[err|] ds] eqn:Hp; cbn.
  - rewrite lookup_insert_eq. f_equal. world_eq.
  - rewrite Hc. cbn. rewrite lookup_insert_eq. f_equal. world_eq.
Qed.

(** X8. [Stmt] and [Close] hold the lock of the cache only while they
    run: entered with the lock free, they leave it free whether they
    return a result, return an error or panic.  The panic is that of a
    handle whose map is [nil]: [Stmt] has the driver prepare the query and
    then panics at the assignment, after which the lock is free and the
    statement is in no cache; [Close] on such a handle returns [nil]
    without a driver call. *)
Theorem Stmt_and_Close_release_the_lock w d db :
  dbs w !! d = Some db ->
  mtxs w !! stmtsMtx db = Some false ->
  (forall query, mtxs (snd (Stmt E d query w)) = mtxs w) /\
  mtxs (snd (Close E d w)) = mtxs w /\
  (maps w !! stmts db = None ->
   (forall query,
       trace (snd (Stmt E d query w)) = trace w ++ [EvPrepareNamed (X db) query] /\
       maps (snd (Stmt E d query w)) = maps w /\
       fst (Stmt E d query w) =
         match fst (drv_PrepareNamed E (X db) query (drv w)) with
         | Some err => Ok (inr err)
         | None => Abort NilMapAssignment
         end) /\
   Close E d w = (Ok None, w)).
Proof.
  intros Hd Hm. split; [|split].
  - intros query. destruct (maps w !! stmts db) as [c|] eqn:Hc.
    + rewrite (Stmt_eq E w d db c query Hd Hm Hc).
      destruct (c !! query); [done|].
      by destruct (fst (drv_PrepareNamed E (X db) query (drv w))).
    + rewrite (Stmt_nil_map w d db query Hd Hm Hc).
      by destruct (fst (drv_PrepareNamed E (X db) query (drv w))).
  - rewrite (Close_unlocked w d db Hd Hm). apply close_range_mtxs.
  - intros Hc. split.
    + intros query. rewrite (Stmt_nil_map w d db query Hd Hm Hc).
      by destruct (fst (drv_PrepareNamed E (X db) query (drv w))).
    + rewrite (Close_unlocked w d db Hd Hm).
      unfold map_contents. rewrite Hc. cbn.
      pose proof (range_order_perm E (drv w) (∅ : gmap string NamedStmt)) as Hp.
      rewrite map_to_list_empty in Hp. apply Permutation_nil_r in Hp.
      by rewrite Hp.
Qed.

(** X9. A [nil] handle, and a handle whose mutex is [nil] (a [Database]
    built without [New]), stop [Stmt], [Exec], [Get], [Select] and [Close]
    with a nil dereference before any driver call: the world is
    unchanged.  [Transact] panics on a [nil] handle in the same way. *)
Theorem calls_on_a_nil_mutex_panic w d ctx opts query dest params f :
  dbs w !! d = None \/
  (exists db, dbs w !! d = Some db /\ mtxs w !! stmtsMtx db = None) ->
  Stmt E d query w = (Abort NilDereference, w) /\
  Exec E d ctx query params w = (Abort NilDereference, w) /\
  Get E d ctx query dest params w = (Abort NilDereference, w) /\
  Select E d ctx query dest params w = (Abort NilDereference, w) /\
  Close E d w = (Abort NilDereference, w) /\
  (dbs w !! d = None -> Transact E d ctx opts f w = (Abort NilDereference, w)).
Proof.
  intros H.
  assert (Stmt E d query w = (Abort NilDereference, w)) as HS.
  { destruct H as [Hd|(db & Hd & Hm)].
    - by apply Stmt_abort.
    - unfold Stmt, bind, deref, Lock. by rewrite Hd, Hm. }
  split; [done|].
  split; [unfold Exec, bind; by rewrite HS|].
  split; [unfold Get, bind; by rewrite HS|].
  split; [unfold Select, bind; by rewrite HS|].
  split; [|by apply Transact_nil].
  destruct H as [Hd|(db & Hd & Hm)].
  - by apply Close_abort.
  - unfold Close, bind, deref, Lock. by rewrite Hd, Hm.
Qed.
End Handles.

Section Callers.
Context {DS : Type} (E : Env DS).
Implicit Types (w : World DS) (d : ptr) (db : Database) (query : string).

(** *** Calls on ready handles return *)

Lemma Stmt_returns w d query :
  sound w -> is_Some (dbs w !! d) -> exists r, fst (Stmt E d query w) = Ok r.
Proof.
  intros Hs [db Hd]. destruct (proj1 Hs d db Hd) as (_ & Hm & [c Hc]).
  rewrite (Stmt_eq E w d db c query Hd Hm Hc).
  destruct (c !! query); [by eexists|].
  destruct (fst (drv_PrepareNamed E (X db) query (drv w))); by eexists.
Qed.

Lemma after_Stmt w d query :
  is_Some (dbs w !! d) -> is_Some (dbs (snd (Stmt E d query w)) !! d).
Proof.
  pose proof (Stmt_same E d query w) as H. unfold same_dbs in H. by rewrite H.
Qed.

Lemma Exec_returns w d ctx query params :
  sound w -> is_Some (dbs w !! d) ->
  exists r, fst (Exec E d ctx query params w) = Ok r.
Proof.
  intros Hs Hd. destruct (Stmt_returns w d query Hs Hd) as [r Hr].
  pose proof (after_Stmt w d query Hd) as [db Hd1].
  unfold Exec, bind. destruct (Stmt E d query w) as [r' w1]. cbn in *. subst r'.
  destruct r as [s|err]; [|by eexists].
  unfold deref. rewrite Hd1.
  destruct (tx db); unfold ExecContext;
    destruct (drv_ExecContext _ _ _ _ _); by eexists.
Qed.

Lemma Get_returns w d ctx query dest params :
  sound w -> is_Some (dbs w !! d) ->
  exists r, fst (Get E d ctx query dest params w) = Ok r.
Proof.
  intros Hs Hd. destruct (Stmt_returns w d query Hs Hd) as [r Hr].
  pose proof (after_Stmt w d query Hd) as [db Hd1].
  unfold Get, bind. destruct (Stmt E d query w) as [r' w1]. cbn in *. subst r'.
  destruct r as [s|err]; [|by eexists].
  unfold deref. rewrite Hd1.
  destruct (tx db); unfold GetContext;
    destruct (drv_GetContext _ _ _ _ _ _) as [[?|] ?]; by eexists.
Qed.

Lemma Select_returns w d ctx query dest params :
  sound w -> is_Some (dbs w !! d) ->
  exists r, fst (Select E d ctx query dest params w) = Ok r.
Proof.
  intros Hs Hd. destruct (Stmt_returns w d query Hs Hd) as [r Hr].
  pose proof (after_Stmt w d query Hd) as [db Hd1].
  unfold Select, bind. destruct (Stmt E d query w) as [r' w1]. cbn in *. subst r'.
  destruct r as [s|err]; [|by eexists].
  unfold deref. rewrite Hd1.
  destruct (tx db); unfold SelectContext;
    destruct (drv_SelectContext _ _ _ _ _ _) as [[?|] ?]; by eexists.
Qed.

Lemma Close_returns w d :
  sound w -> is_Some (dbs w !! d) -> exists r, fst (Close E d w) = Ok r.
Proof.
  intros Hs [db Hd]. rewrite (Close_eq E w d db (proj1 Hs d db Hd)).
  destruct (close_range_spec E
              (range_order E (drv w) (map_contents (stmts db) w)) w)
    as (? & ? & _ & _ & _ & _ & _ & Hres).
  destruct (fst (close_range E _ w)) as [r|]; [by eexists|done].
Qed.

Lemma conclude_returns t lvl e w : exists r, fst (conclude E t lvl e w) = Ok r.
Proof.
  unfold conclude, bind, Rollback, Commit. destruct e.
  - destruct (drv_Rollback E t (drv w)) as [[?|] ?]; by eexists.
  - destruct (drv_Commit E t (drv w)) as [[?|] ?]; by eexists.
Qed.

Lemma Transact_returns w d ctx opts f :
  is_Some (dbs w !! d) ->
  (forall db t w1,
      dbs w !! d = Some db -> tx db = None ->
      BeginTxx E (X db) ctx opts w = (Ok (inl t), w1) ->
      exists e, fst (f (child_ptr w1) (callback_world w1 (child_of db t))) = Ok e) ->
  exists r, fst (Transact E d ctx opts f w) = Ok r.
Proof.
  intros [db Hd] Hf.
  destruct (tx db) as [t0|] eqn:Ht;
    [rewrite (Transact_nested E d db) by (by rewrite ?Ht); by eexists|].
  destruct (BeginTxx_Ok E (X db) ctx opts w) as ([t|err] & w1 & Hb).
  - rewrite (Transact_begun E d db ctx opts f w t w1 Hd Ht Hb).
    destruct (Hf db t w1 Hd Ht Hb) as [e He]. unfold bind.
    destruct (f _ _) as [r w3]. cbn in He. subst r. apply conclude_returns.
  - rewrite (Transact_begin_fails E d db ctx opts f w err w1 Hd Ht Hb). by eexists.
Qed.

(** What a call leaves for the next: a sound world in which the handles
    the caller holds are still allocated. *)
Lemma holds_after (S : ptr -> Prop) {A} (m : M A) w :
  respects keeps_sound m ->
  sound w -> (forall d, S d -> is_Some (dbs w !! d)) ->
  sound (snd (m w)) /\ (forall d, S d -> is_Some (dbs (snd (m w)) !! d)).
Proof.
  intros Hm Hs HS. destruct (Hm w) as [Hsub Hk]. split; [by apply Hk|].
  intros d Hd. destruct (HS d Hd) as [db Hdb]. exists db.
  by apply (lookup_weaken _ _ _ _ Hdb).
Qed.

Ltac next_call Hop Hret :=
  match goal with
  | Hs : sound ?w, HS : forall d, _ -> is_Some (dbs ?w !! d), IH : forall r w, _
    |- exists e, fst (bind ?m _ ?w) = Ok e =>
      let Hs' := fresh in let HS' := fresh in let r := fresh "r" in
      let Hr := fresh in
      destruct (holds_after _ m w Hop Hs HS) as [Hs' HS'];
      destruct Hret as [r Hr];
      unfold bind; destruct (m w) as [? ?]; cbn in Hr, Hs', HS'; subst;
      by apply IH
  end.

(** [New] returns, with the new handle added to the heap. *)
Lemma New_returns dbx w :
  exists d db w',
    New (DS:=DS) dbx w = (Ok d, w') /\ dbs w' = <[d := db]> (dbs w).
Proof.
  unfold New, bind, alloc_Mutex, make_map, alloc_Database. cbn.
  do 3 eexists. split; reflexivity.
Qed.

(** X10. A caller that aims its calls at handles it holds never makes
    the package panic or block: from a sound world in which its handles
    are allocated, its run returns. *)
Theorem callers_never_panic (S : ptr -> Prop) p w :
  scoped S p ->
  sound w ->
  (forall d, S d -> is_Some (dbs w !! d)) ->
  exists e, fst (run E p w) = Ok e.
Proof.
  intros Hp. revert w.
  induction Hp as
    [S e | S dbx k _ IH | S d query k Hd _ IH | S d ctx query params k Hd _ IH
    | S d ctx query dest params k Hd _ IH | S d ctx query dest params k Hd _ IH
    | S d ctx opts f k Hd _ IHf _ IH | S d k Hd _ IH];
    intros w Hs HS; cbn [run].
  - by eexists.
  - destruct (New_returns dbx w) as (d & db & w' & HN & Hdbs).
    pose proof (New_keeps dbx w) as [Hsub Hk].
    unfold bind. rewrite HN in *. cbn in *.
    apply (IH d); [by apply Hk|].
    intros d' [Hd' | ->].
    + destruct (HS d' Hd') as [db' Hdb']. exists db'.
      by apply (lookup_weaken _ _ _ _ Hdb').
    + rewrite Hdbs, lookup_insert_eq. by eexists.
  - next_call (Stmt_keeps E d query) (Stmt_returns w d query Hs (HS d Hd)).
  - next_call (Exec_keeps E d ctx query params)
      (Exec_returns w d ctx query params Hs (HS d Hd)).
  - next_call (Get_keeps E d ctx query dest params)
      (Get_returns w d ctx query dest params Hs (HS d Hd)).
  - next_call (Select_keeps E d ctx query dest params)
      (Select_returns w d ctx query dest params Hs (HS d Hd)).
  - assert (respects keeps_sound (Transact E d ctx opts (fun c => run E (f c))))
      as Hop by (apply Transact_keeps; intros c; apply run_keeps).
    assert (exists r, fst (Transact E d ctx opts (fun c => run E (f c)) w) = Ok r)
      as Hret.
    { apply Transact_returns; [by apply HS|].
      intros db t w1 Hdb Ht Hb.
      destruct (BeginTxx_begun E _ _ _ _ _ _ Hb) as (_ & _ & Hdbs & _).
      assert (keeps_sound w (callback_world w1 (child_of db t))) as [Hsub Hk].
      { transitivity w1.
        - pose proof (heap_same_keeps _ (BeginTxx_heap E (X db) ctx opts) w) as H.
          by rewrite Hb in H.
        - apply (callback_world_keeps w1 db t d). by rewrite Hdbs. }
      apply (IHf (child_ptr w1)); [by apply Hk|].
      intros d' [Hd' | ->].
      + destruct (HS d' Hd') as [db' Hdb']. exists db'.
        by apply (lookup_weaken _ _ _ _ Hdb').
      + cbn. rewrite lookup_insert_eq. by eexists. }
    next_call Hop Hret.
  - next_call (Close_keeps E d) (Close_returns w d Hs (HS d Hd)).
Qed.
End Callers.

Section Sharing.
Context {DS : Type} (E : Env DS).
Implicit Types (w : World DS) (d : ptr) (db : Database) (query : string).

(** X12. [Exec] of a query that is not cached prepares it on the base
    connection, stores it and runs it: the driver sees [PrepareNamed] and
    then the execution, on the new statement bound to the transaction
    when the handle is transaction-scoped.  What is stored is the
    statement itself, not its transaction-bound copy, and a second [Exec]
    of the query makes the execution call only. *)
Theorem Exec_of_a_new_query w d db c ctx query params :
  dbs w !! d = Some db ->
  mtxs w !! stmtsMtx db = Some false ->
  maps w !! stmts db = Some c ->
  c !! query = None ->
  fst (drv_PrepareNamed E (X db) query (drv w)) = None ->
  let s := {| stmt_id := next_stmt w; stmt_tx := None |} in
  let w' := snd (Exec E d ctx query params w) in
  trace w' =
    trace w ++ [EvPrepareNamed (X db) query;
                EvExecContext (target db s) ctx (default_params params)] /\
  map_contents (stmts db) w' = <[query := s]> c /\
  trace (snd (Exec E d ctx query params w')) =
    trace w' ++ [EvExecContext (target db s) ctx (default_params params)].
Proof.
  intros Hd Hm Hc Hq Hok s w'.
  set (w1 := with_maps (<[stmts db := <[query := s]> c]> (maps w))
               (with_next_stmt (S (next_stmt w)) (prepared E w (X db) query))).
  assert (Stmt E d query w = (Ok (inl s), w1)) as HS.
  { rewrite (Stmt_eq E w d db c query Hd Hm Hc), Hq. by rewrite Hok. }
  assert (w' = snd (ExecContext E (target db s) ctx (default_params params) w1))
    as Hw'.
  { subst w'. by rewrite (Exec_resolved E w d db ctx query params s w1 Hd HS). }
  assert (trace w' = trace w1 ++
            [EvExecContext (target db s) ctx (default_params params)] /\
          dbs w' = dbs w /\ mtxs w' = mtxs w /\ maps w' = maps w1)
    as (Htr & Hdb' & Hmx' & Hmp').
  { rewrite Hw'. unfold ExecContext. by destruct (drv_ExecContext _ _ _ _ _). }
  assert (map_contents (stmts db) w' = <[query := s]> c) as Hcache.
  { unfold map_contents. rewrite Hmp'. cbn. by rewrite lookup_insert_eq. }
  split; [rewrite Htr; cbn; by rewrite <- app_assoc|].
  split; [done|].
  assert (Stmt E d query w' = (Ok (inl s), w')) as HS'.
  { apply (Stmt_hit E w' d db).
    - by rewrite Hdb'.
    - by rewrite Hmx'.
    - rewrite Hcache. apply lookup_insert_eq. }
  rewrite (Exec_resolved E w' d db ctx query params s w') by (by rewrite ?Hdb').
  unfold ExecContext. by destruct (drv_ExecContext _ _ _ _ _).
Qed.

(** X13. Statements prepared inside a transaction outlive it: whatever
    is in the shared cache when the unit of work ends is in the cache of
    the parent after [Transact], whether the transaction was committed or
    rolled back or the unit of work panicked, and [Stmt] on the parent
    answers it without a driver call. *)
Theorem statements_outlive_the_transaction w d db ctx opts (f : ptr -> Prog) t w1 :
  sound w ->
  dbs w !! d = Some db ->
  tx db = None ->
  BeginTxx E (X db) ctx opts w = (Ok (inl t), w1) ->
  let work := run E (f (child_ptr w1)) (callback_world w1 (child_of db t)) in
  let w' := snd (Transact E d ctx opts (fun c => run E (f c)) w) in
  forall query s,
    map_contents (stmts (child_of db t)) (snd work) !! query = Some s ->
    map_contents (stmts db) w' !! query = Some s /\
    Stmt E d query w' = (Ok (inl s), w').
Proof.
  intros Hs Hd Ht Hb work w' query s Hq.
  destruct (BeginTxx_begun E _ _ _ _ _ _ Hb) as (_ & _ & Hdbs & _).
  assert (keeps_sound w (callback_world w1 (child_of db t))) as [Hsub2 Hk2].
  { transitivity w1.
    - pose proof (heap_same_keeps _ (BeginTxx_heap E (X db) ctx opts) w) as H.
      by rewrite Hb in H.
    - apply (callback_world_keeps w1 db t d). by rewrite Hdbs. }
  destruct (Hk2 Hs) as [Hs2 _].
  destruct (run_keeps E (f (child_ptr w1)) (callback_world w1 (child_of db t)))
    as [Hsub3 Hk3]. fold work in Hsub3, Hk3.
  destruct (Hk3 Hs2) as [Hs3 _].
  assert (dbs (snd work) !! d = Some db) as Hd3.
  { apply (lookup_weaken _ _ _ _ Hd). by etransitivity. }
  assert (heap_same (snd work) w') as (Hdb' & Hmx' & Hmp' & _).
  { subst w'. rewrite (Transact_begun E d db ctx opts _ w t w1 Hd Ht Hb).
    unfold bind. fold work. destruct work as [[e|flt] w3]; cbn.
    - apply (conclude_heap E).
    - done. }
  assert (map_contents (stmts db) w' !! query = Some s) as Hq'.
  { unfold map_contents in *. by rewrite Hmp'. }
  split; [done|].
  destruct (proj1 Hs3 d db Hd3) as (_ & Hm3 & _).
  apply (Stmt_hit E w' d db); [by rewrite Hdb' | by rewrite Hmx' | done].
Qed.

(** X14. The caches only grow: from a sound world, whatever a caller
    does, [Close] included, every handle keeps every cache entry it had,
    with the same statement. *)
Theorem caches_only_grow p w :
  sound w ->
  let w' := snd (run E p w) in
  sound w' /\
  forall d db,
    dbs w !! d = Some db ->
    dbs w' !! d = Some db /\
    map_contents (stmts db) w ⊆ map_contents (stmts db) w'.
Proof.
  intros Hs w'. destruct (run_keeps E p w) as [Hsub Hk].
  destruct (Hk Hs) as [Hs' Hg]. fold w' in Hsub, Hs', Hg.
  split; [done|]. intros d db Hd.
  split; [by apply (lookup_weaken _ _ _ _ Hd)|].
  destruct (proj1 Hs d db Hd) as (_ & _ & [c Hc]).
  destruct (Hg _ _ Hc) as (c' & Hc' & Hcc).
  unfold map_contents. by rewrite Hc, Hc'.
Qed.

(** X15. A unit of work that calls [Transact] on the handle it was given
    and returns the error gets its transaction rolled back: the inner
    call begins nothing and does not enter its callback, and the outer
    call returns [tx level N: nested tx not currently supported], or the
    failure of the rollback. *)
Theorem nested_attempt_rolls_back w d db ctx opts ctx' opts' g t w1 :
  dbs w !! d = Some db ->
  tx db = None ->
  BeginTxx E (X db) ctx opts w = (Ok (inl t), w1) ->
  let lvl := txLevel (child_of db t) in
  exists w4,
    trace w4 =
      trace w ++ [EvBeginTxx (X db) ctx opts; EvUnitOfWork (child_ptr w1);
                  EvRollback t] /\
    Transact E d ctx opts (fun c => Transact E c ctx' opts' g) w =
      (Ok (Some
             match fst (drv_Rollback E t (drv w1)) with
             | Some re => withMessage re (tx_level_msg lvl ": rollback")
             | None =>
                 withMessage (errors.New "nested tx not currently supported")
                   (tx_level_msg lvl "")
             end), w4).
Proof.
  intros Hd Ht Hb lvl.
  destruct (BeginTxx_begun E _ _ _ _ _ _ Hb) as (_ & _ & _ & _ & _ & Htr1).
  rewrite (Transact_begun E d db ctx opts _ w t w1 Hd Ht Hb).
  unfold bind at 1.
  rewrite (Transact_nested E (child_ptr w1) (child_of db t) ctx' opts' g
             (callback_world w1 (child_of db t)));
    [|cbn; apply lookup_insert_eq|by eexists].
  unfold conclude, bind, Rollback. cbn.
  destruct (drv_Rollback E t (drv w1)) as [[re|] ds]; cbn;
    eexists; (split; [|reflexivity]); cbn; rewrite Htr1; by rewrite <- !app_assoc.
Qed.

(** X16. The check against nesting looks at the handle [Transact] is
    called on, not at the connection: a unit of work that calls
    [Transact] on the root handle, whose transaction reference is never
    set, begins a second transaction on the same connection while the
    first is open, again at depth one more than the root's. *)
Theorem root_handle_begins_again w d db ctx opts ctx' opts' (g : ptr -> Prog) t w1 :
  dbs w !! d = Some db ->
  tx db = None ->
  BeginTxx E (X db) ctx opts w = (Ok (inl t), w1) ->
  let w2 := callback_world w1 (child_of db t) in
  dbs w2 !! d = Some db /\
  exists r w1',
    BeginTxx E (X db) ctx' opts' w2 = (Ok r, w1') /\
    trace w1' = trace w2 ++ [EvBeginTxx (X db) ctx' opts'] /\
    match r with
    | inl t' =>
        t' = S t /\
        txLevel (child_of db t') = txLevel (child_of db t) /\
        Transact E d ctx' opts' (fun c => run E (g c)) w2 =
          bind (run E (g (child_ptr w1')))
            (conclude E t' (txLevel (child_of db t')))
            (callback_world w1' (child_of db t'))
    | inr err =>
        Transact E d ctx' opts' (fun c => run E (g c)) w2 = (Ok (Some err), w1')
    end.
Proof.
  intros Hd Ht Hb w2.
  destruct (BeginTxx_begun E _ _ _ _ _ _ Hb) as (-> & Hnext & Hdbs & _).
  assert (dbs w2 !! d = Some db) as Hd2.
  { subst w2. cbn. rewrite lookup_insert_ne; [by rewrite Hdbs|].
    intros Heq. assert (dbs w1 !! child_ptr w1 = None) as Hf
      by (apply not_elem_of_dom, is_fresh).
    rewrite Heq, Hdbs, Hd in Hf. done. }
  split; [done|].
  destruct (BeginTxx_Ok E (X db) ctx' opts' w2) as (r & w1' & Hb').
  exists r, w1'. split; [done|].
  split.
  { revert Hb'. unfold BeginTxx.
    destruct (drv_BeginTxx E (X db) ctx' opts' (drv w2)) as [[?|] ?];
      intros H; inversion H; subst; done. }
  destruct r as [t'|err].
  - destruct (BeginTxx_begun E _ _ _ _ _ _ Hb') as (-> & _).
    split; [subst w2; cbn; by rewrite Hnext|]. split; [done|].
    exact (Transact_begun E d db ctx' opts' (fun c => run E (g c)) w2
             (next_tx w2) w1' Hd2 Ht Hb').
  - by apply (Transact_begin_fails E d db).
Qed.

(** X17. The statement [Stmt] hands to its caller is bound to the
    connection, also on a transaction-scoped handle: in a sound world no
    call of [Stmt] returns a statement bound to a transaction.  The
    binding to the transaction is made by [Exec], [Get] and [Select] for
    one call and is not stored. *)
Theorem Stmt_returns_an_unbound_statement w d query s w1 :
  sound w ->
  Stmt E d query w = (Ok (inl s), w1) ->
  stmt_tx s = None /\
  forall db, dbs w !! d = Some db ->
             map_contents (stmts db) w1 !! query = Some s.
Proof.
  intros Hs HS.
  destruct (dbs w !! d) as [db|] eqn:Hd; [|by rewrite Stmt_abort in HS].
  pose proof (proj1 Hs d db Hd) as Hr.
  destruct (Stmt_caches E w d db query s w1 Hr HS) as [_ Hq1].
  split; [|by intros ? [= <-]].
  destruct Hr as (_ & Hm & [c Hc]).
  rewrite (Stmt_eq E w d db c query Hd Hm Hc) in HS.
  destruct (c !! query) as [s'|] eqn:Hq.
  - inversion HS; subst. by destruct (proj1 (proj2 Hs _ _ Hc) query s Hq).
  - destruct (fst (drv_PrepareNamed E (X db) query (drv w))); [done|].
    by inversion HS.
Qed.
End Sharing.

(** ** Runs of the scripted driver *)

Section Runs.
Import Scripted Examples.

(** The package's test: the transaction fails at its third insert in the
    test; here the unit of work returns an error after one insert.  The
    statement prepared before the transaction is reused inside it, bound
    to the transaction, and the transaction is rolled back. *)
Example test_db_trace :
  trace (snd (run env test_db (init quiet))) =
    [EvPrepareNamed 7%nat insert;
     EvBeginTxx 7%nat 0%nat opts;
     EvUnitOfWork child;
     EvExecContext (Tx_NamedStmt 0%nat insert_stmt) 0%nat
       (params_named [("id", 1); ("x", 1)]);
     EvRollback 0%nat;
     EvPrepareNamed 7%nat count;
     EvGetContext count_stmt 0%nat 0%nat params_empty_struct;
     EvStmtClose count_stmt;
     EvStmtClose insert_stmt].
Proof. vm_compute. reflexivity. Qed.

(** The error a failed unit of work surfaces with. *)
Example failing_work_error :
  fst (Transact env root 0%nat opts (fun c => run env (failing_work c))
         (warm_world quiet)) =
    Ok (Some (withMessage (fundamental "unable to insert (1,1)") "tx level 1")) /\
  errors.Error (withMessage (fundamental "unable to insert (1,1)") "tx level 1") =
    "tx level 1: unable to insert (1,1)".
Proof. split; vm_compute; reflexivity. Qed.

(** A query the driver cannot prepare is not cached: each call of [Stmt]
    asks the driver again. *)
Example failed_prepare_is_retried :
  fst (Stmt_times env 2 root insert (fresh_world no_prepare)) =
    Ok [inr (driver_error "prepare failed"); inr (driver_error "prepare failed")] /\
  trace (snd (Stmt_times env 2 root insert (fresh_world no_prepare))) =
    [EvPrepareNamed 7%nat insert; EvPrepareNamed 7%nat insert] /\
  map_contents (stmts root_db)
    (snd (Stmt_times env 2 root insert (fresh_world no_prepare))) = ∅.
Proof. repeat split; vm_compute; reflexivity. Qed.

(** [Close] twice, as the test does: the entries stay in the map and are
    released again. *)
Example close_twice :
  trace (snd (Close env root (snd (Close env root (two_world quiet))))) =
    trace (two_world quiet) ++
    [EvStmtClose count_stmt; EvStmtClose insert_stmt;
     EvStmtClose count_stmt; EvStmtClose insert_stmt].
Proof. vm_compute. reflexivity. Qed.

(** A handle whose mutex or map is [nil] (a [Database] literal built
    without [New]) makes [Stmt] panic. *)
Example Stmt_on_zero_handle :
  let w := snd (alloc_Database
                  {| X := 7%nat; tx := None; txLevel := 0;
                     stmtsMtx := 1%positive; stmts := 1%positive |}
                  (init quiet)) in
  fst (Stmt env 1%positive insert w) = Abort NilDereference.
Proof. vm_compute. reflexivity. Qed.
End Runs.

(** ** The claims on the example worlds *)

Section Witnesses.
Import Scripted Examples.

Lemma init_sound (sc : Script) : sound (init sc).
Proof. split; [intros d db|intros m c]; cbn; by rewrite lookup_empty. Qed.

Lemma example_worlds_sound (sc : Script) :
  sound (fresh_world sc) /\ sound (warm_world sc) /\ sound (entry_world sc).
Proof.
  assert (sound (fresh_world sc)) as H1
    by exact (proj1 (proj2 (New_keeps 7%nat (init sc)) (init_sound sc))).
  assert (sound (warm_world sc)) as H2
    by exact (proj1 (proj2 (Stmt_keeps env root insert (fresh_world sc)) H1)).
  split; [done|]. split; [done|].
  assert (sound (begun_world sc)) as H3.
  { exact (proj1 (proj2 (heap_same_keeps _ (BeginTxx_heap env 7%nat 0%nat opts)
                           (warm_world sc)) H2)). }
  refine (proj1 (proj2 (callback_world_keeps (begun_world sc) root_db 0%nat root _) H3)).
  unfold begun_world, warm_world, fresh_world.
  pose proof (BeginTxx_same env 7%nat 0%nat opts
                (snd (Stmt env root insert (snd (New 7%nat (init sc)))))) as Hb.
  pose proof (Stmt_same env root insert (snd (New 7%nat (init sc)))) as Hs.
  unfold same_dbs in *. rewrite Hb, Hs. reflexivity.
Qed.

Lemma Stmt_prepares_absent_query_witness :
  exists r w',
    Stmt env root insert (fresh_world quiet) = (Ok r, w') /\
    trace w' = trace (fresh_world quiet) ++ [EvPrepareNamed (X root_db) insert] /\
    dbs w' = dbs (fresh_world quiet) /\ mtxs w' = mtxs (fresh_world quiet) /\
    match fst (drv_PrepareNamed env (X root_db) insert (drv (fresh_world quiet))) with
    | Some err => r = inr err /\ maps w' = maps (fresh_world quiet)
    | None =>
        exists s, r = inl s /\ stmt_tx s = None /\
          maps w' = <[stmts root_db := <[insert := s]> ∅]> (maps (fresh_world quiet)) /\
          map_contents (stmts root_db) w' !! insert = Some s
    end.
Proof.
  refine (Stmt_prepares_absent_query env (fresh_world quiet) root root_db ∅
            insert _ _ _ _); vm_compute; reflexivity.
Defined.

Lemma Stmt_cache_identity_witness :
  (Stmt env root insert (warm_world quiet) = (Ok (inl insert_stmt), warm_world quiet) /\
   (forall n, Stmt_times env n root insert (warm_world quiet) =
              (Ok (repeat (inl insert_stmt) n), warm_world quiet)) /\
   (forall p, Stmt env root insert (snd (run env p (warm_world quiet))) =
              (Ok (inl insert_stmt), snd (run env p (warm_world quiet))))) /\
  (exists s w1,
     Stmt env root insert (fresh_world quiet) = (Ok (inl s), w1) /\
     map_contents (stmts root_db) w1 !! insert = Some s /\
     trace w1 = trace (fresh_world quiet) ++ [EvPrepareNamed (X root_db) insert] /\
     (forall n, Stmt_times env n root insert w1 = (Ok (repeat (inl s) n), w1)) /\
     (forall n, Stmt_times env (S n) root insert (fresh_world quiet) =
                (Ok (repeat (inl s) (S n)), w1)) /\
     (forall p, Stmt env root insert (snd (run env p w1)) =
                (Ok (inl s), snd (run env p w1)))).
Proof.
  split.
  - destruct (proj1 (Stmt_cache_identity env (warm_world quiet) root root_db insert
                       ltac:(vm_compute; eauto))
                insert_stmt ltac:(vm_compute; reflexivity))
      as (H1 & H2 & H3).
    split; [exact H1|]. split; [exact H2|].
    exact (H3 (proj1 (proj2 (example_worlds_sound quiet)))).
  - destruct (proj2 (Stmt_cache_identity env (fresh_world quiet) root root_db insert
                       ltac:(vm_compute; eauto))
                ltac:(vm_compute; reflexivity) ltac:(vm_compute; reflexivity))
      as (s & w1 & H1 & H2 & H3 & H4 & H5 & H6).
    exists s, w1. do 5 (split; [assumption|]).
    exact (H6 (proj1 (example_worlds_sound quiet))).
Defined.

Lemma operations_run_on_target_witness :
  Exec env child 0%nat insert params_nil (entry_world quiet) =
    ExecContext env (target (child_of root_db 0%nat) insert_stmt) 0%nat
      (default_params params_nil) (entry_world quiet) /\
  Get env child 0%nat insert 0%nat params_nil (entry_world quiet) =
    GetContext env (target (child_of root_db 0%nat) insert_stmt) 0%nat 0%nat
      (default_params params_nil) (entry_world quiet) /\
  Select env child 0%nat insert 0%nat params_nil (entry_world quiet) =
    SelectContext env (target (child_of root_db 0%nat) insert_stmt) 0%nat 0%nat
      (default_params params_nil) (entry_world quiet) /\
  trace (snd (Exec env child 0%nat insert params_nil (entry_world quiet))) =
    trace (entry_world quiet) ++
    [EvExecContext (target (child_of root_db 0%nat) insert_stmt) 0%nat
       (default_params params_nil)] /\
  trace (snd (Get env child 0%nat insert 0%nat params_nil (entry_world quiet))) =
    trace (entry_world quiet) ++
    [EvGetContext (target (child_of root_db 0%nat) insert_stmt) 0%nat 0%nat
       (default_params params_nil)] /\
  trace (snd (Select env child 0%nat insert 0%nat params_nil (entry_world quiet))) =
    trace (entry_world quiet) ++
    [EvSelectContext (target (child_of root_db 0%nat) insert_stmt) 0%nat 0%nat
       (default_params params_nil)] /\
  (forall t, tx (child_of root_db 0%nat) = Some t ->
             target (child_of root_db 0%nat) insert_stmt = Tx_NamedStmt t insert_stmt) /\
  (tx (child_of root_db 0%nat) = None ->
   target (child_of root_db 0%nat) insert_stmt = insert_stmt).
Proof.
  refine (operations_run_on_target env (entry_world quiet) child
            (child_of root_db 0%nat) 0%nat insert 0%nat params_nil insert_stmt
            (entry_world quiet) _ _); vm_compute; reflexivity.
Defined.

Lemma Transact_rejects_nesting_witness :
  Transact env child 0%nat opts (fun c => run env (quiet_work c)) (entry_world quiet) =
    (Ok (Some (errors.New "nested tx not currently supported")), entry_world quiet) /\
  trace (snd (Transact env child 0%nat opts (fun c => run env (quiet_work c))
                (entry_world quiet))) =
    trace (entry_world quiet).
Proof.
  refine (Transact_rejects_nesting env (entry_world quiet) child
            (child_of root_db 0%nat) 0%nat opts _ _ _).
  - vm_compute; reflexivity.
  - eexists. vm_compute. reflexivity.
Defined.

Lemma Transact_rolls_back_on_error_witness :
  let lvl := txLevel (child_of root_db 0%nat) in
  exists res w4,
    Transact env root 0%nat opts (fun c => run env (failing_work c))
      (warm_world no_rollback) = (Ok (Some res), w4) /\
    trace w4 = trace (after_work no_rollback failing_work) ++ [EvRollback 0%nat] /\
    has_tx_level lvl res = true /\
    match fst (drv_Rollback env 0%nat (drv (after_work no_rollback failing_work))) with
    | Some re =>
        res = withMessage re (tx_level_msg lvl ": rollback") /\
        errors.Cause res = errors.Cause re /\
        errors.Error res =
          tx_level_msg lvl ": rollback" +:+ ": " +:+ errors.Error re
    | None =>
        res = withMessage (errors.New "unable to insert (1,1)") (tx_level_msg lvl "") /\
        errors.Cause res = errors.Cause (errors.New "unable to insert (1,1)") /\
        errors.Error res =
          tx_level_msg lvl "" +:+ ": " +:+
          errors.Error (errors.New "unable to insert (1,1)")
    end.
Proof.
  refine (Transact_rolls_back_on_error env (warm_world no_rollback) root root_db
            0%nat opts (fun c => run env (failing_work c)) 0%nat
            (begun_world no_rollback) (errors.New "unable to insert (1,1)")
            (after_work no_rollback failing_work) _ _ _ _);
    vm_compute; reflexivity.
Defined.

Lemma Transact_child_handle_witness :
  let c := child_ptr (begun_world quiet) in
  exists child w2,
    (forall f, Transact env root 0%nat opts f (warm_world quiet) =
               bind (f c) (conclude env 0%nat (txLevel child)) w2) /\
    dbs (warm_world quiet) !! c = None /\
    dbs w2 = <[c := child]> (dbs (warm_world quiet)) /\
    0%nat = next_tx (warm_world quiet) /\
    X child = X root_db /\
    tx child = Some 0%nat /\
    txLevel child = GoInt.add (txLevel root_db) 1 /\
    (GoInt.min_int <= txLevel root_db < GoInt.max_int ->
     txLevel child = txLevel root_db + 1) /\
    stmtsMtx child = stmtsMtx root_db /\
    stmts child = stmts root_db /\
    maps w2 = maps (warm_world quiet) /\
    mtxs w2 = mtxs (warm_world quiet) /\
    (forall query s,
        mtxs (warm_world quiet) !! stmtsMtx root_db = Some false ->
        map_contents (stmts root_db) (warm_world quiet) !! query = Some s ->
        Stmt env c query w2 = (Ok (inl s), w2) /\
        forall ctx' params,
          Exec env c ctx' query params w2 =
            ExecContext env (Tx_NamedStmt 0%nat s) ctx' (default_params params) w2) /\
    (forall w0 w0' p query s,
        sound w0 ->
        dbs w0 !! root = Some root_db ->
        Stmt env root query w0 = (Ok (inl s), w0') ->
        warm_world quiet = snd (run env p w0') ->
        Stmt env c query w2 = (Ok (inl s), w2)).
Proof.
  refine (Transact_child_handle env (warm_world quiet) root root_db 0%nat opts
            0%nat (begun_world quiet) _ _ _); vm_compute; reflexivity.
Defined.

Lemma Transact_lifecycle_errors_witness :
  (forall err w1,
      BeginTxx env (X root_db) 0%nat opts (warm_world no_commit) = (Ok (inr err), w1) ->
      Transact env root 0%nat opts (fun c => run env (quiet_work c))
        (warm_world no_commit) = (Ok (Some err), w1) /\
      trace w1 = trace (warm_world no_commit) ++ [EvBeginTxx (X root_db) 0%nat opts]) /\
  (forall t w1 w3,
      BeginTxx env (X root_db) 0%nat opts (warm_world no_commit) = (Ok (inl t), w1) ->
      let lvl := txLevel (child_of root_db t) in
      let entry := (fun c => run env (quiet_work c)) (child_ptr w1)
                     (callback_world w1 (child_of root_db t)) in
      (entry = (Ok None, w3) ->
       exists w4,
         trace w4 = trace w3 ++ [EvCommit t] /\
         match fst (drv_Commit env t (drv w3)) with
         | Some ce =>
             Transact env root 0%nat opts (fun c => run env (quiet_work c))
               (warm_world no_commit) =
               (Ok (Some (withMessage ce (tx_level_msg lvl ": commit"))), w4) /\
             has_tx_level lvl (withMessage ce (tx_level_msg lvl ": commit")) = true
         | None =>
             Transact env root 0%nat opts (fun c => run env (quiet_work c))
               (warm_world no_commit) = (Ok None, w4)
         end) /\
      (forall e re,
          entry = (Ok (Some e), w3) ->
          fst (drv_Rollback env t (drv w3)) = Some re ->
          exists w4,
            trace w4 = trace w3 ++ [EvRollback t] /\
            Transact env root 0%nat opts (fun c => run env (quiet_work c))
              (warm_world no_commit) =
              (Ok (Some (withMessage re (tx_level_msg lvl ": rollback"))), w4) /\
            has_tx_level lvl (withMessage re (tx_level_msg lvl ": rollback")) = true)).
Proof.
  refine (Transact_lifecycle_errors env (warm_world no_commit) root root_db 0%nat
            opts (fun c => run env (quiet_work c)) _ _); vm_compute; reflexivity.
Defined.

Lemma Transact_keeps_caller_handle_witness :
  let w' := snd (Transact env root 0%nat opts (fun c => run env (failing_work c))
                   (warm_world quiet)) in
  dbs w' !! root = dbs (warm_world quiet) !! root /\
  (forall l db, dbs (warm_world quiet) !! l = Some db -> dbs w' !! l = Some db) /\
  (forall db t w1,
      dbs (warm_world quiet) !! root = Some db -> tx db = None ->
      BeginTxx env (X db) 0%nat opts (warm_world quiet) = (Ok (inl t), w1) ->
      dbs (warm_world quiet) !! child_ptr w1 = None /\
      dbs w' !! child_ptr w1 = Some (child_of db t)).
Proof.
  exact (Transact_keeps_caller_handle env (warm_world quiet) root 0%nat opts
           failing_work).
Defined.

Lemma reachable_handles_invariant_witness :
  dbs (snd (run env test_db (init quiet))) !! child = Some (child_of root_db 0%nat) /\
  (is_Some (tx (child_of root_db 0%nat)) <-> 1 <= txLevel (child_of root_db 0%nat)) /\
  0 <= txLevel (child_of root_db 0%nat) <= 1.
Proof.
  assert (dbs (snd (run env test_db (init quiet))) !! child =
          Some (child_of root_db 0%nat)) as H by (vm_compute; reflexivity).
  split; [exact H|].
  exact (proj2 (proj2 (proj2 (proj2 (reachable_handles_invariant env))))
           test_db quiet child (child_of root_db 0%nat) H).
Defined.

(** C7, as stated, fails when [BeginTxx] fails: [Transact] returns the
    driver's error as it is, and its message does not start with
    [tx level 1]. *)
Lemma Transact_begin_error_not_annotated :
  exists w',
    Transact env root 0%nat opts (fun c => run env (quiet_work c))
      (warm_world no_begin) = (Ok (Some (driver_error "begin failed")), w') /\
    trace w' = trace (warm_world no_begin) ++ [EvBeginTxx 7%nat 0%nat opts] /\
    errors.Error (driver_error "begin failed") = "begin failed" /\
    has_tx_level (txLevel root_db + 1) (driver_error "begin failed") = false.
Proof.
  eexists. split; [vm_compute; reflexivity|]. vm_compute. auto.
Qed.

(** C8, as stated, fails on a cache of two statements of which the first
    that [range] visits fails to close: [Close] returns that failure at
    once, and the other statement, which is in the cache, is never
    released. *)
Lemma Close_leaves_statement_unreleased :
  map_contents (stmts root_db) (two_world no_close_count) !! insert =
    Some insert_stmt /\
  range_order env (drv (two_world no_close_count))
    (map_contents (stmts root_db) (two_world no_close_count)) =
    [(count, count_stmt); (insert, insert_stmt)] /\
  exists w',
    Close env root (two_world no_close_count) =
      (Ok (Some (driver_error "close failed")), w') /\
    trace w' = trace (two_world no_close_count) ++ [EvStmtClose count_stmt] /\
    ~ In (EvStmtClose insert_stmt) (trace w').
Proof.
  split; [vm_compute; reflexivity|].
  split; [vm_compute; reflexivity|].
  eexists. split; [vm_compute; reflexivity|].
  split; [vm_compute; reflexivity|].
  vm_compute. intros H. repeat destruct H as [H|H]; try discriminate H. exact H.
Qed.

Lemma Close_releases_until_first_failure_witness :
  let cache := map_contents (stmts root_db) (two_world quiet) in
  let w' := snd (Close env root (two_world quiet)) in
  exists attempted rest,
    range_order env (drv (two_world quiet)) cache = attempted ++ rest /\
    attempted ++ rest ≡ₚ map_to_list cache /\
    trace w' = trace (two_world quiet) ++ map (fun e => EvStmtClose e.2) attempted /\
    dbs w' = dbs (two_world quiet) /\ mtxs w' = mtxs (two_world quiet) /\
    maps w' = maps (two_world quiet) /\
    match fst (Close env root (two_world quiet)) with
    | Ok None =>
        rest = [] /\
        is_Some (closes_ok env attempted (drv (two_world quiet))) /\
        ((forall q1 q2 s, cache !! q1 = Some s -> cache !! q2 = Some s -> q1 = q2) ->
         forall q s,
           cache !! q = Some s ->
           count_occ Event_eq_dec
             (map (fun e => EvStmtClose e.2) attempted) (EvStmtClose s) = 1%nat)
    | Ok (Some err) =>
        exists pre k s ds1,
          attempted = pre ++ [(k, s)] /\
          closes_ok env pre (drv (two_world quiet)) = Some ds1 /\
          fst (drv_StmtClose env s ds1) = Some err
    | Abort _ => False
    end.
Proof.
  refine (Close_releases_until_first_failure env (two_world quiet) root root_db _).
  split; [|split]; [vm_compute; reflexivity | vm_compute; reflexivity|].
  eexists. vm_compute. reflexivity.
Defined.

End Witnesses.

(** ** The further properties on the example worlds *)

Section FurtherWitnesses.
Import Scripted Examples.

Lemma unprepared_query_is_not_executed_witness :
  let w1 := prepared env (fresh_world no_prepare) (X root_db) insert in
  Exec env root 0%nat insert params_nil (fresh_world no_prepare) =
    (Ok (inr (driver_error "prepare failed")), w1) /\
  Get env root 0%nat insert 0%nat params_nil (fresh_world no_prepare) =
    (Ok (Some (driver_error "prepare failed")), w1) /\
  Select env root 0%nat insert 0%nat params_nil (fresh_world no_prepare) =
    (Ok (Some (driver_error "prepare failed")), w1) /\
  trace w1 = trace (fresh_world no_prepare) ++ [EvPrepareNamed (X root_db) insert] /\
  maps w1 = maps (fresh_world no_prepare) /\ mtxs w1 = mtxs (fresh_world no_prepare).
Proof.
  refine (unprepared_query_is_not_executed env (fresh_world no_prepare) root root_db
            ∅ 0%nat insert 0%nat params_nil (driver_error "prepare failed")
            _ _ _ _ _); vm_compute; reflexivity.
Defined.

Lemma handles_sharing_a_cache_agree_witness :
  (forall query, Stmt env root query (entry_world quiet) =
                 Stmt env child query (entry_world quiet)) /\
  Close env root (entry_world quiet) = Close env child (entry_world quiet).
Proof.
  refine (handles_sharing_a_cache_agree env (entry_world quiet) root root_db child
            (child_of root_db 0%nat) _ _ _ _ _); vm_compute; reflexivity.
Defined.

Lemma Close_of_an_empty_cache_witness :
  Close env root (fresh_world quiet) = (Ok None, fresh_world quiet).
Proof.
  refine (Close_of_an_empty_cache env (fresh_world quiet) root root_db _ _).
  - split; [|split]; [vm_compute; reflexivity | vm_compute; reflexivity|].
    eexists. vm_compute. reflexivity.
  - vm_compute. reflexivity.
Defined.

Lemma two_world_ready : ready (two_world quiet) root root_db.
Proof.
  split; [|split]; [vm_compute; reflexivity | vm_compute; reflexivity|].
  eexists. vm_compute. reflexivity.
Defined.

Lemma Close_keeps_the_cache_witness :
  let w' := snd (Close env root (two_world quiet)) in
  ready w' root root_db /\
  map_contents (stmts root_db) w' = map_contents (stmts root_db) (two_world quiet) /\
  (forall query s,
      map_contents (stmts root_db) (two_world quiet) !! query = Some s ->
      Stmt env root query w' = (Ok (inl s), w')).
Proof.
  exact (Close_keeps_the_cache env (two_world quiet) root root_db two_world_ready).
Defined.

Lemma two_world_cache :
  map_to_list (map_contents (stmts root_db) (two_world quiet)) =
    [(count, count_stmt); (insert, insert_stmt)].
Proof. vm_compute. reflexivity. Defined.

Lemma two_world_one_query_each q1 q2 s :
  map_contents (stmts root_db) (two_world quiet) !! q1 = Some s ->
  map_contents (stmts root_db) (two_world quiet) !! q2 = Some s -> q1 = q2.
Proof.
  intros H1 H2. apply elem_of_map_to_list in H1, H2.
  rewrite two_world_cache in H1, H2.
  rewrite !elem_of_cons, elem_of_nil in H1, H2.
  destruct H1 as [H1|[H1|[]]], H2 as [H2|[H2|[]]];
    inversion H1; inversion H2; subst; try done; discriminate.
Defined.

Lemma Close_twice_releases_twice_witness :
  exists evs,
    trace (snd (Close env root (snd (Close env root (two_world quiet))))) =
      trace (two_world quiet) ++ evs /\
    forall q s, map_contents (stmts root_db) (two_world quiet) !! q = Some s ->
                count_occ Event_eq_dec evs (EvStmtClose s) = 2%nat.
Proof.
  refine (Close_twice_releases_twice env (two_world quiet) root root_db
            two_world_ready _ _ two_world_one_query_each); vm_compute; reflexivity.
Defined.

Lemma Stmt_and_Close_release_the_lock_witness :
  (forall query, mtxs (snd (Stmt env root query (two_world quiet))) =
                 mtxs (two_world quiet)) /\
  mtxs (snd (Close env root (two_world quiet))) = mtxs (two_world quiet) /\
  (maps (two_world quiet) !! stmts root_db = None ->
   (forall query,
       trace (snd (Stmt env root query (two_world quiet))) =
         trace (two_world quiet) ++ [EvPrepareNamed (X root_db) query] /\
       maps (snd (Stmt env root query (two_world quiet))) = maps (two_world quiet) /\
       fst (Stmt env root query (two_world quiet)) =
         match fst (drv_PrepareNamed env (X root_db) query (drv (two_world quiet))) with
         | Some err => Ok (inr err)
         | None => Abort NilMapAssignment
         end) /\
   Close env root (two_world quiet) = (Ok None, two_world quiet)).
Proof.
  refine (Stmt_and_Close_release_the_lock env (two_world quiet) root root_db _ _);
    vm_compute; reflexivity.
Defined.

Lemma calls_on_a_nil_mutex_panic_witness :
  Stmt env root insert (init quiet) = (Abort NilDereference, init quiet) /\
  Exec env root 0%nat insert params_nil (init quiet) =
    (Abort NilDereference, init quiet) /\
  Get env root 0%nat insert 0%nat params_nil (init quiet) =
    (Abort NilDereference, init quiet) /\
  Select env root 0%nat insert 0%nat params_nil (init quiet) =
    (Abort NilDereference, init quiet) /\
  Close env root (init quiet) = (Abort NilDereference, init quiet) /\
  (dbs (init quiet) !! root = None ->
   Transact env root 0%nat opts (fun c => run env (quiet_work c)) (init quiet) =
     (Abort NilDereference, init quiet)).
Proof.
  refine (calls_on_a_nil_mutex_panic env (init quiet) root 0%nat opts insert 0%nat
            params_nil (fun c => run env (quiet_work c)) _).
  left. vm_compute. reflexivity.
Defined.

Lemma test_db_scoped : scoped (fun _ => False) test_db.
Proof.
  unfold test_db, failing_work.
  apply scoped_New. intros d.
  apply scoped_Stmt; [by right|]. intros r1.
  apply scoped_Transact; [by right| |].
  - intros c. apply scoped_Exec; [by right|]. intros r2. apply scoped_Return.
  - intros r2. apply scoped_Get; [by right|]. intros r3.
    apply scoped_Close; [by right|]. intros r4. apply scoped_Return.
Defined.

Lemma callers_never_panic_witness :
  exists e, fst (run env test_db (init quiet)) = Ok e.
Proof.
  refine (callers_never_panic env (fun _ => False) test_db (init quiet)
            test_db_scoped (init_sound quiet) _).
  intros d [].
Defined.

Lemma transaction_is_concluded_once_witness :
  let work := run env (failing_work (child_ptr (begun_world quiet)))
                (callback_world (begun_world quiet) (child_of root_db 0%nat)) in
  exists evs_work,
    trace (snd work) =
      trace (warm_world quiet) ++
      [EvBeginTxx (X root_db) 0%nat opts; EvUnitOfWork (child_ptr (begun_world quiet))] ++
      evs_work /\
    commits 0%nat evs_work = 0%nat /\
    rollbacks 0%nat evs_work = 0%nat /\
    trace (snd (Transact env root 0%nat opts (fun c => run env (failing_work c))
                  (warm_world quiet))) =
      trace (snd work) ++
      match fst work with
      | Ok None => [EvCommit 0%nat]
      | Ok (Some _) => [EvRollback 0%nat]
      | Abort _ => []
      end.
Proof.
  refine (transaction_is_concluded_once env (warm_world quiet) root root_db 0%nat
            opts failing_work 0%nat (begun_world quiet) _ _ _);
    vm_compute; reflexivity.
Defined.

Lemma Exec_of_a_new_query_witness :
  let s := {| stmt_id := next_stmt (fresh_world quiet); stmt_tx := None |} in
  let w' := snd (Exec env root 0%nat insert params_nil (fresh_world quiet)) in
  trace w' =
    trace (fresh_world quiet) ++
    [EvPrepareNamed (X root_db) insert;
     EvExecContext (target root_db s) 0%nat (default_params params_nil)] /\
  map_contents (stmts root_db) w' = <[insert := s]> ∅ /\
  trace (snd (Exec env root 0%nat insert params_nil w')) =
    trace w' ++ [EvExecContext (target root_db s) 0%nat (default_params params_nil)].
Proof.
  refine (Exec_of_a_new_query env (fresh_world quiet) root root_db ∅ 0%nat insert
            params_nil _ _ _ _ _); vm_compute; reflexivity.
Defined.

Lemma statements_outlive_the_transaction_witness :
  let w' := snd (Transact env root 0%nat opts
                   (fun c => run env (MoreExamples.counting_work c))
                   (warm_world quiet)) in
  map_contents (stmts root_db) (warm_world quiet) !! count = None /\
  map_contents (stmts root_db) w' !! count = Some count_stmt /\
  Stmt env root count w' = (Ok (inl count_stmt), w').
Proof.
  split; [vm_compute; reflexivity|].
  refine (statements_outlive_the_transaction env (warm_world quiet) root root_db
            0%nat opts MoreExamples.counting_work 0%nat (begun_world quiet)
            (proj1 (proj2 (example_worlds_sound quiet))) _ _ _ count count_stmt _);
    vm_compute; reflexivity.
Defined.

Lemma caches_only_grow_witness :
  let w' := snd (run env test_db (warm_world quiet)) in
  sound w' /\
  forall d db,
    dbs (warm_world quiet) !! d = Some db ->
    dbs w' !! d = Some db /\
    map_contents (stmts db) (warm_world quiet) ⊆ map_contents (stmts db) w'.
Proof.
  exact (caches_only_grow env test_db (warm_world quiet)
           (proj1 (proj2 (example_worlds_sound quiet)))).
Defined.

Lemma nested_attempt_rolls_back_witness :
  let lvl := txLevel (child_of root_db 0%nat) in
  exists w4,
    trace w4 =
      trace (warm_world quiet) ++
      [EvBeginTxx (X root_db) 0%nat opts; EvUnitOfWork (child_ptr (begun_world quiet));
       EvRollback 0%nat] /\
    Transact env root 0%nat opts
      (fun c => Transact env c 0%nat opts (fun c' => run env (quiet_work c')))
      (warm_world quiet) =
      (Ok (Some
             match fst (drv_Rollback env 0%nat (drv (begun_world quiet))) with
             | Some re => withMessage re (tx_level_msg lvl ": rollback")
             | None =>
                 withMessage (errors.New "nested tx not currently supported")
                   (tx_level_msg lvl "")
             end), w4).
Proof.
  refine (nested_attempt_rolls_back env (warm_world quiet) root root_db 0%nat opts
            0%nat opts (fun c' => run env (quiet_work c')) 0%nat (begun_world quiet)
            _ _ _); vm_compute; reflexivity.
Defined.

Lemma root_handle_begins_again_witness :
  let w2 := callback_world (begun_world quiet) (child_of root_db 0%nat) in
  dbs w2 !! root = Some root_db /\
  exists r w1',
    BeginTxx env (X root_db) 0%nat opts w2 = (Ok r, w1') /\
    trace w1' = trace w2 ++ [EvBeginTxx (X root_db) 0%nat opts] /\
    match r with
    | inl t' =>
        t' = 1%nat /\
        txLevel (child_of root_db t') = txLevel (child_of root_db 0%nat) /\
        Transact env root 0%nat opts (fun c => run env (quiet_work c)) w2 =
          bind (run env (quiet_work (child_ptr w1')))
            (conclude env t' (txLevel (child_of root_db t')))
            (callback_world w1' (child_of root_db t'))
    | inr err =>
        Transact env root 0%nat opts (fun c => run env (quiet_work c)) w2 =
          (Ok (Some err), w1')
    end.
Proof.
  refine (root_handle_begins_again env (warm_world quiet) root root_db 0%nat opts
            0%nat opts quiet_work 0%nat (begun_world quiet) _ _ _);
    vm_compute; reflexivity.
Defined.

Lemma Stmt_returns_an_unbound_statement_witness :
  stmt_tx insert_stmt = None /\
  forall db, dbs (entry_world quiet) !! child = Some db ->
             map_contents (stmts db) (entry_world quiet) !! insert = Some insert_stmt.
Proof.
  refine (Stmt_returns_an_unbound_statement env (entry_world quiet) child insert
            insert_stmt (entry_world quiet)
            (proj2 (proj2 (example_worlds_sound quiet))) _).
  vm_compute. reflexivity.
Defined.
End FurtherWitnesses.
